(** * Tracey: the allocation registry, the tracer dispatcher and the report

    A shallow embedding of [tracey.cpp]: the [tree] class, the [container]
    of leaks with its report, the [custom_mutex] reentrancy guard, the
    [tracer] dispatcher and the public entry points built on it.

    Conventions.
    - [size_t] and [void *] are 64 bits wide; a value of either type is a
      [Z] in [0, 2^64), arithmetic wraps with [wrap].
    - [int] is 32 bits wide, two's complement ([to_int]).
    - A pointer that the source owns exclusively ([leak *], [callstack *])
      is an [option]: [None] is the null pointer.
    - What the operating system supplies (backtraces, symbol names,
      temporary file names, the memory behind a host pointer) is gathered
      in the record [platform]; every definition is parametric in it. *)

From Stdlib Require Import ZArith QArith String Ascii List Lia Lqa DecimalString.
From stdpp Require Import strings gmap sorting.

#[local] Set Warnings "-register-all".
Local Open Scope string_scope.
Local Open Scope list_scope.
Local Open Scope Z_scope.

(** ** Machine integers *)

Definition SIZE_BITS : Z := 64.
Definition SIZE_MOD : Z := 2 ^ SIZE_BITS.
Definition SIZE_MAX : Z := SIZE_MOD - 1.

(** Reduction of an arithmetic result to [size_t]. *)
Definition wrap (z : Z) : Z := z mod SIZE_MOD.

(** Conversion to (and arithmetic in) a 32-bit [int]. *)
Definition to_int (z : Z) : Z := (z + 2 ^ 31) mod 2 ^ 32 - 2 ^ 31.

(** [~0], [(~0) - k] compared with or converted to a [size_t]: the [int]
    value [-1 - k] is sign-extended, which gives [SIZE_MAX - k]. *)
Definition sentinel (k : Z) : Z := wrap (-1 - k).

(** ** Build-time settings ([kTracey...] macros) *)

Record settings_t := {
  kTraceyEnabled : bool;
  kTraceyWebserver : bool;
  kTraceyReportWildPointers : bool;
  kTraceyStacktraceMaxTraces : Z;
  kTraceyStacktraceSkipBegin : Z;
  kTraceyStacktraceSkipEnd : Z;
  kTraceyCharLinefeed : string;
  kTraceyCharTab : string
}.

Definition LF : string := String "010"%char EmptyString.
Definition TAB : string := String "009"%char EmptyString.

(** The values the source gives when nothing is predefined. *)
Definition default_settings : settings_t := {|
  kTraceyEnabled := true;
  kTraceyWebserver := true;
  kTraceyReportWildPointers := false;
  kTraceyStacktraceMaxTraces := 128;
  kTraceyStacktraceSkipBegin := 0;
  kTraceyStacktraceSkipEnd := 0;
  kTraceyCharLinefeed := LF;
  kTraceyCharTab := TAB
|}.

(** ** [tracey::string]: safe formatting *)

(** [ss << t] for an unsigned or signed integer. *)
Definition show (z : Z) : string := NilZero.string_of_int (Z.to_int z).

(** [safefmt]: a character of the format whose code is at most [N] (the
    number of arguments plus one) is replaced by the argument of that
    index, [t[0]] being the text built so far; every other character is
    copied.  Index [N] itself is past the end of [t] in the source; no
    format of this file uses it, and the model reads an empty string. *)
Fixpoint safefmt (fmt : string) (args : list string) (acc : string) : string :=
  match fmt with
  | EmptyString => acc
  | String c rest =>
      let index := nat_of_ascii c in
      if (index <=? S (length args))%nat
      then safefmt rest args (acc +:+ nth index (acc :: args) EmptyString)
      else safefmt rest args (acc +:+ String c EmptyString)
  end.

Definition fmt (f : string) (args : list string) : string :=
  safefmt f args EmptyString.

(** The placeholders [\1] .. [\4]. *)
Definition p1 : string := String "001"%char EmptyString.
Definition p2 : string := String "002"%char EmptyString.
Definition p3 : string := String "003"%char EmptyString.
Definition p4 : string := String "004"%char EmptyString.

(** ** [tracey::tree<K, V = int>] *)

(** A node is its [value] and its children, a [std::map] from key to
    subtree: an association list kept in ascending key order, which is the
    order every loop of the class walks it in.  The [parent] pointer is
    left out: only [up], [setup] and [is_root] read it, and the report
    uses none of them. *)
Inductive tree : Type :=
| Node (value : Z) (children : list (Z * tree)).

Definition get (t : tree) : Z := let 'Node v _ := t in v.
Definition children (t : tree) : list (Z * tree) := let 'Node _ cs := t in cs.

(** [tree()]: value zero, no children. *)
Definition tree_new : tree := Node 0 [].

(** [set(v)], which [tree::operator=(const other &)] forwards to; the
    stored value is an [int]. *)
Definition set (v : Z) (t : tree) : tree := Node (to_int v) (children t).

Fixpoint find_child (k : Z) (cs : list (Z * tree)) : option tree :=
  match cs with
  | [] => None
  | (k', c) :: rest => if k' =? k then Some c else find_child k rest
  end.

(** [children[t] = c] on the ordered map. *)
Fixpoint put_child (k : Z) (c : tree) (cs : list (Z * tree)) : list (Z * tree) :=
  match cs with
  | [] => [(k, c)]
  | (k', c') :: rest =>
      if k <? k' then (k, c) :: (k', c') :: rest
      else if k =? k' then (k, c) :: rest
      else (k', c') :: put_child k c rest
  end.

(** [insert(t)] alias [operator()(t)]: the child is created when absent
    (the self-assignment [children[t] = children[t]] changes nothing), and
    the node that is returned is that child. *)
Definition child_or_new (k : Z) (t : tree) : tree :=
  match find_child k (children t) with
  | Some c => c
  | None => tree_new
  end.

Definition insert (k : Z) (t : tree) : tree :=
  Node (get t) (put_child k (child_or_new k t) (children t)).

(** [node( k ) = v] through a [tree *]: insert, then assign the value of
    the child. *)
Definition insert_set (k v : Z) (t : tree) : tree :=
  Node (get t) (put_child k (set v (child_or_new k t)) (children t)).

(** A [tree *] into a tree is the list of keys that leads to the node it
    points to; [at_path] applies [f] to that node. *)
Fixpoint at_path (path : list Z) (f : tree -> tree) (t : tree) : tree :=
  match path with
  | [] => f t
  | k :: rest =>
      Node (get t) (put_child k (at_path rest f (child_or_new k t)) (children t))
  end.

(** [recalc()]: a node without children keeps its value, any other node
    takes the sum of the recomputed values of its children.  The sum is
    an [int]; where it overflows, which the language leaves undefined, the
    model wraps. *)
Fixpoint recalc (t : tree) : tree :=
  match t with
  | Node v cs =>
      let cs' := List.map (fun kc => (fst kc, recalc (snd kc))) cs in
      let value :=
        fold_left (fun acc kc => to_int (acc + get (snd kc))) cs'
                  (match cs with [] => v | _ => 0 end) in
      Node value cs'
  end.

(** [std::string tabs( depth, kTraceyCharTab[0] )]. *)
Fixpoint tabs (cfg : settings_t) (depth : nat) : string :=
  match depth with
  | O => EmptyString
  | S d =>
      match kTraceyCharTab cfg with
      | String c _ => String c (tabs cfg d)
      | EmptyString => String Ascii.zero (tabs cfg d)
      end
  end.

(** [print( tmap, cout, depth )]: one line per node, children first to
    last, each followed by its own subtree; the text is what is written
    to the file.  The bracketed number is the size of the map the node
    sits in.  A key missing from [tmap] dereferences [end()] in the
    source; the report inserts every key before it prints. *)
Fixpoint print (cfg : settings_t) (tmap : gmap Z string) (depth : nat) (t : tree)
  : string :=
  match t with
  | Node _ cs =>
      fold_left
        (fun out kc =>
           out
           +:+ tabs cfg depth +:+ "[" +:+ show (Z.of_nat (length cs)) +:+ "] "
           +:+ default EmptyString (tmap !! fst kc)
           +:+ " (" +:+ show (get (snd kc)) +:+ ")" +:+ LF
           +:+ print cfg tmap (S depth) (snd kc))
        cs EmptyString
  end.

(** ** What the platform supplies *)

Record platform := {
  (** [backtrace_symbols] and demangling, or the DbgHelp loop: the names
      of a run of frames.  The result may be shorter than the input. *)
  resolve_stack_trace : list Z -> list string;
  (** [ss << p] for a [void *]. *)
  show_ptr : Z -> string;
  (** [get_temp_pathfile()], that is [std::tmpnam(0)], for the report at
      hand.  The source asks for a new name at every report; a platform
      record describes one report, and two reports of one run are not
      given the same name by the source. *)
  get_temp_pathfile : string;
  (** The format [view_report] hands to [std::system] ([start \1],
      [open \1], [xdg-open \1]), if the platform is one of the three. *)
  view_format : option string;
  (** [tracey::settings()]. *)
  settings_text : string;
  (** The host memory behind a pointer, read as an [int]. *)
  peek_int : Z -> Z;
  (** The host memory behind a pointer, read as a [tracey::string]. *)
  peek_string : Z -> string
}.

(** ** Call stacks *)

(** [callstack_naked]: the slots [frames[0 .. num_frames)]; the
    constructor clears the slots after them. *)
Record callstack := { frames : list Z }.

Definition num_frames (cs : callstack) : Z := Z.of_nat (length (frames cs)).

(** [frames[i]]; a cleared slot reads zero. *)
Definition frame_at (cs : callstack) (i : Z) : Z := nth (Z.to_nat i) (frames cs) 0.

(** [capture_stack_trace], GNU branch: [bt] is what [backtrace] finds at
    the call, innermost frame first. *)
Definition capture_stack_trace (cfg : settings_t)
    (frames_to_skip max_frames : Z) (bt : list Z) : list Z :=
  let max_frames :=
    if kTraceyStacktraceMaxTraces cfg <? max_frames
    then kTraceyStacktraceMaxTraces cfg else max_frames in
  if max_frames <? frames_to_skip then []
  else firstn (Z.to_nat max_frames) bt.

(** [callstack::callstack()]. *)
Definition callstack_new (cfg : settings_t) (bt : list Z) : callstack :=
  {| frames := capture_stack_trace cfg 1 (kTraceyStacktraceMaxTraces cfg) bt |}.

(** [callstack::str( format12, skip_begin )]. *)
Definition callstack_str (pf : platform) (format12 : string) (skip_begin : Z)
    (cs : callstack) : list string :=
  imap (fun i s => fmt format12 [show (Z.of_nat i + 1); s])
       (resolve_stack_trace pf (skipn (Z.to_nat skip_begin) (frames cs))).

(** [strings::str( format1 )] and [strings::flat()]. *)
Definition strings_str (format1 : string) (l : list string) : string :=
  match l with
  | [x] => x
  | _ => fold_left (fun out s => out +:+ fmt format1 [s]) l EmptyString
  end.

Definition flat (l : list string) : string := strings_str p1 l.

(** ** Leaks and the container *)

Record leak := { leak_size : Z; leak_id : Z }.

(** [leak_full]: the pair of owning pointers stored under an address. *)
Abbreviation leak_full := (option leak * option callstack)%type.

Record tuple := { addr : Z; lk : leak; cs : callstack }.

(** The entries of the [std::map], in the order its iterators visit
    them: ascending address. *)
Definition addr_le (a b : Z * leak_full) : Prop := a.1 ≤ b.1.

#[global] Instance addr_le_dec : RelDecision addr_le.
Proof. intros a b. unfold addr_le. apply _. Defined.

Definition entries (m : gmap Z leak_full) : list (Z * leak_full) :=
  merge_sort addr_le (map_to_list m).

(** [container::collect_leaks]: the result list and [*wasted]. *)
Definition collect_step (timestamp_id : Z) (acc : list tuple * Z)
    (e : Z * leak_full) : list tuple * Z :=
  let '(list, wasted) := acc in
  let '(my_address, (my_leak, my_callstack)) := e in
  match my_leak, my_callstack with
  | Some l, Some c =>
      if timestamp_id <=? leak_id l
      then (list ++ [{| addr := my_address; lk := l; cs := c |}],
            wrap (wasted + leak_size l))
      else (list, wasted)
  | _, _ => (list, wasted)
  end.

Definition collect_leaks (timestamp_id : Z) (m : gmap Z leak_full)
  : list tuple * Z :=
  fold_left (collect_step timestamp_id) (entries m) ([], 0).

(** *** The score *)

(** The percentage is a [double] in the source.  For counts below 2^40
    the product is exact and the quotient is far enough from the
    thresholds (all of them exact in binary) that the comparisons give the
    same answers on the exact rationals used here. *)
Definition leaks_pct (n_leak size : Z) : Q :=
  if size =? 0 then 0%Q
  else (inject_Z n_leak * 100 / inject_Z size)%Q.

Definition Qgt_bool (a b : Q) : bool := negb (Qle_bool a b).

Definition score_of (leaks_pct : Q) : string :=
  let score := "perfect!" in
  let score := if Qgt_bool leaks_pct 0 then "excellent" else score in
  let score := if Qgt_bool leaks_pct (5 # 4) then "good" else score in
  let score := if Qgt_bool leaks_pct (5 # 2) then "poor" else score in
  let score := if Qgt_bool leaks_pct 5 then "mediocre" else score in
  let score := if Qgt_bool leaks_pct 10 then "lame" else score in
  score.

(** *** The trees of frames *)

(** The keys of the two branches: [(~0)-0] and [(~0)-1] as pointers. *)
Definition BOTTOM_TOP : Z := sentinel 0.
Definition TOP_BOTTOM : Z := sentinel 1.

(** The loop variables of the tree-building loop: the tree, the set of
    frames, and the two cursors [_tree] and [_tree_inv]. *)
Record walk := {
  w_tree : tree;
  w_set : gset Z;
  w_cur : list Z;
  w_cur_inv : list Z
}.

(** One turn of the inner loop, for index [i]. *)
Definition walk_step (start end_ : Z) (l : tuple) (w : walk) (i : Z) : walk :=
  let f := frame_at (cs l) (start + i) in
  let g := frame_at (cs l) (end_ - i) in
  let t1 := at_path (w_cur w) (insert_set f (leak_size (lk l))) (w_tree w) in
  let cur := w_cur w ++ [f] in
  let t2 := at_path (w_cur_inv w) (insert_set g (leak_size (lk l))) t1 in
  let cur_inv := w_cur_inv w ++ [g] in
  {| w_tree := t2; w_set := {[g]} ∪ ({[f]} ∪ w_set w);
     w_cur := cur; w_cur_inv := cur_inv |}.

(** The body of the outer loop for one leak.  The bounds are [unsigned]:
    [end] is reduced modulo 2^32, and the loop runs while
    [start + i <= end]. *)
Definition add_leak (cfg : settings_t) (acc : tree * gset Z) (l : tuple)
  : tree * gset Z :=
  let w0 := {| w_tree := acc.1; w_set := acc.2;
               w_cur := [BOTTOM_TOP]; w_cur_inv := [TOP_BOTTOM] |} in
  if num_frames (cs l) =? 0 then acc
  else
    let start := kTraceyStacktraceSkipBegin cfg in
    let end_ := (num_frames (cs l) - 1 - kTraceyStacktraceSkipEnd cfg) mod 2 ^ 32 in
    let turns := if start <=? end_ then Z.to_nat (end_ - start + 1) else O in
    let w := fold_left (walk_step start end_ l) (List.map Z.of_nat (seq 0 turns)) w0 in
    (w_tree w, w_set w).

Definition build_trees (cfg : settings_t) (filtered : list tuple) : tree * gset Z :=
  fold_left (add_leak cfg) filtered
            (insert TOP_BOTTOM (insert BOTTOM_TOP tree_new), ∅).

(** *** [container::_report] *)

Definition version : string := "tracey-0.20.b".
Definition url : string := "https://github.com/r-lyeh/tracey".
Definition says : string := "<tracey/tracey.cpp> says: ".

(** What one run of [_report] produces: the path it returns, the text it
    writes to the file of that path (which is taken to open), the lines
    it prints, and the values it computes on the way. *)
Record report_t := {
  logfile : string;
  html : string;
  printed : list string;
  n_leak : Z;
  wasted : Z;
  score : string;
  frames_tree : tree
}.

(** The map [translate] from frame to label. *)
Definition translate_of (pf : platform) (frames : list Z) (symbols : list string)
  : gmap Z string :=
  let named :=
    if (length frames =? length symbols)%nat
    then fold_left (fun tr fs => <[fs.1 := fs.2]> tr) (zip frames symbols) ∅
    else fold_left (fun tr f => <[f := fmt p1 [show_ptr pf f]]> tr) frames ∅ in
  <[TOP_BOTTOM := "top-bottom normal tree (useful to find leak beginnings)"]>
    (<[BOTTOM_TOP := "bottom-top normal tree (useful to find leak endings)"]> named).

Definition _report (cfg : settings_t) (pf : platform) (timestamp_id : Z)
    (m : gmap Z leak_full) : report_t :=
  let lf := kTraceyCharLinefeed cfg in
  let logfile := get_temp_pathfile pf +:+ "xxx-tracey.html" in
  (* Find leaks *)
  let '(filtered, wasted) := collect_leaks timestamp_id m in
  let n_leak := Z.of_nat (length filtered) in
  let out1 :=
    [ says +:+ "filtering leaks..." +:+ lf;
      fmt (says +:+ "found " +:+ p1 +:+ " leaks wasting " +:+ p2 +:+ " bytes" +:+ lf)
          [show n_leak; show wasted] ] in
  (* Calc score *)
  let score := score_of (leaks_pct n_leak (Z.of_nat (size m))) in
  (* Header *)
  let header :=
    "<html><body><xmp>"
    +:+ fmt (says +:+ "generated with " +:+ p1 +:+ " (" +:+ p2 +:+ ")" +:+ lf)
            [version; url]
    +:+ (says +:+ "best viewed on foldable text editor (like SublimeText2) with tabs=2sp and no word-wrap" +:+ lf)
    +:+ fmt (says +:+ p1 +:+ ", " +:+ p2 +:+ " leaks found; " +:+ p3
             +:+ " bytes wasted ('" +:+ p4 +:+ "' score)" +:+ lf)
            [if n_leak =? 0 then "ok" else "error"; show n_leak; show wasted; score] in
  (* Body *)
  let out2 := [ says +:+ "creating trees of frames..." +:+ lf ] in
  let '(tree0, set) := build_trees cfg filtered in
  let '(out3, body, tree1) :=
    if (size set =? 0)%nat then
      (if n_leak =? 0 then []
       else [ says +:+ "error! failed to resolve symbols." +:+ lf ],
       EmptyString, tree0)
    else
      let frames := merge_sort Z.le (elements set) in
      let symbols := resolve_stack_trace pf frames in
      let mismatch :=
        if (length frames =? length symbols)%nat then EmptyString
        else fmt (says +:+ "error! cannot resolve all frames (" +:+ p1 +:+ " vs "
                  +:+ p2 +:+ ")!" +:+ lf)
                 [show (Z.of_nat (length frames)); show (Z.of_nat (length symbols))] in
      let translate := translate_of pf frames symbols in
      let tree1 := recalc tree0 in
      ([ fmt (says +:+ "resolving " +:+ p1 +:+ " unique frames..." +:+ lf)
             [show (Z.of_nat (size set))];
         says +:+ "converting tree of frames into tree of symbols..." +:+ lf;
         says +:+ "flattering tree of symbols..." +:+ lf ],
       mismatch +:+ print cfg translate 0 tree1, tree1) in
  (* Footer *)
  {| logfile := logfile;
     html := header +:+ body +:+ "</xmp></body></html>";
     printed := out1 ++ out2 ++ out3;
     n_leak := n_leak; wasted := wasted; score := score;
     frames_tree := tree1 |}.

(** ** The state of the tracer *)

(** Modelled from the spec: [stats_t] is declared in [tracey.hpp], which
    is not among the sources.  It holds the three running counters, read
    in the source as [usage], [leaks] and [peak]; a fresh value has all of
    them zero. *)
Record stats_t := { usage : Z; leaks : Z; peak : Z }.

Definition stats_t_new : stats_t := {| usage := 0; leaks := 0; peak := 0 |}.

Record custom_mutex := {
  recursive : bool;
  map : gmap Z leak_full
}.

(** [custom_mutex::try_lock]: refused when the flag is up, otherwise the
    flag is raised.  [unlock] lowers it. *)
Definition try_lock (m : custom_mutex) : bool * custom_mutex :=
  if recursive m then (false, m)
  else (true, {| recursive := true; map := map m |}).

Definition unlock (m : custom_mutex) : custom_mutex :=
  {| recursive := false; map := map m |}.

(** The function-local [static custom_mutex m] of [tracer] together with
    the global pointer [mutex] to it: not yet constructed (the pointer is
    null), constructed, or destroyed (the pointer is null again). *)
Inductive mutex_t :=
| Unbuilt
| Built (m : custom_mutex)
| Destroyed.

Record world := {
  mutex : mutex_t;
  stats : stats_t;
  timestamp_id : Z;
  (** the [static size_t id] of [create_id] *)
  id : Z;
  (** the [static bool once] of [tracer] *)
  once : bool;
  (** [kTraceyPrintf] calls, oldest first *)
  stdout : list string;
  (** files written, oldest first, as path and content *)
  files : list (string * string);
  (** commands given to [std::system], oldest first *)
  shell : list string
}.

Definition initial_world : world := {|
  mutex := Unbuilt; stats := stats_t_new; timestamp_id := 0; id := 0;
  once := false; stdout := []; files := []; shell := []
|}.

(** [create_id()]: pre-increment of the static, whose new value is
    returned. *)
Definition create_id (w : world) : Z := wrap (id w + 1).

(** [container::_clear]: every leak and call stack is deleted and the map
    emptied. *)
Definition _clear (m : gmap Z leak_full) : gmap Z leak_full := ∅.

(** [view_report]. *)
Definition view_report (pf : platform) (html : string) : list string :=
  match view_format pf with
  | Some f => [fmt f [html]]
  | None => []
  end.

(** ** The dispatcher *)

(** The object behind [ptr] as the casts of [tracer] read it. *)
Record pointee := { int_at : Z; string_at : string }.

Definition host (pf : platform) (ptr : Z) : pointee :=
  {| int_at := peek_int pf ptr; string_at := peek_string pf ptr |}.

(** A value that [tracer] stores through [ptr]. *)
Inductive stored :=
| StoredStats (s : stats_t)
| StoredString (s : string).

(** The result of a call: the state it leaves, the pointer it returns,
    the final value of its [size] reference, and what it stored through
    [ptr]. *)
Record outcome := {
  o_world : world;
  o_ptr : Z;
  o_size : Z;
  o_stored : option stored
}.

Definition with_mutex (m : custom_mutex) (w : world) : world :=
  {| mutex := Built m; stats := stats w; timestamp_id := timestamp_id w;
     id := id w; once := once w; stdout := stdout w; files := files w;
     shell := shell w |}.

(** [{ static custom_mutex m; }]: constructed on the first passage. *)
Definition static_m (w : world) : world :=
  match mutex w with
  | Unbuilt => with_mutex {| recursive := false; map := ∅ |} w
  | _ => w
  end.

(** The web server block: on the first locked passage the settings are
    printed and the server thread is started. *)
Definition webserver_once (cfg : settings_t) (pf : platform) (w : world) : world :=
  if kTraceyWebserver cfg && negb (once w) then
    {| mutex := mutex w; stats := stats w; timestamp_id := timestamp_id w;
       id := id w; once := true; stdout := stdout w ++ [settings_text pf];
       files := files w; shell := shell w |}
  else w.

(** *** The branches, entered with the lock held *)

(** While a branch runs the flag is up.  The allocations that the
    branches make themselves ([new leak], [new callstack], the nodes of
    the map, strings) reach [watch] through the replaced [operator new]
    and are turned away at [try_lock]; they are not written out below. *)

(** The text printed for a wild pointer, with the call stack of the
    call. *)
Definition wild_pointer_warning (cfg : settings_t) (pf : platform) (bt : list Z)
  : string :=
  (says +:+ "Error, wild pointer deallocation." +:+ kTraceyCharLinefeed cfg)
  +:+ flat (callstack_str pf
              (kTraceyCharTab cfg +:+ p1 +:+ ") " +:+ p2 +:+ kTraceyCharLinefeed cfg)
              (kTraceyStacktraceSkipBegin cfg)
              (callstack_new cfg bt)).

(** [size == ~0]: a deallocation. *)
Definition tracer_free (cfg : settings_t) (pf : platform) (bt : list Z)
    (m : custom_mutex) (w : world) (ptr size : Z) : custom_mutex * outcome :=
  match map m !! ptr with
  | Some (first, second) =>
      let stats' :=
        match first with
        | Some l => {| usage := wrap (usage (stats w) - leak_size l);
                       leaks := wrap (leaks (stats w) - 1);
                       peak := peak (stats w) |}
        | None => stats w
        end in
      ({| recursive := recursive m; map := <[ptr := (None, None)]> (map m) |},
       {| o_world :=
            {| mutex := mutex w; stats := stats'; timestamp_id := timestamp_id w;
               id := id w; once := once w; stdout := stdout w; files := files w;
               shell := shell w |};
          o_ptr := ptr; o_size := size; o_stored := None |})
  | None =>
      (* 1st) wild pointer deallocation found; warn user *)
      let warning :=
        if kTraceyReportWildPointers cfg then [wild_pointer_warning cfg pf bt]
        else [] in
      (* 2nd) normalize ptr for further deallocation *)
      (m,
       {| o_world :=
            {| mutex := mutex w; stats := stats w; timestamp_id := timestamp_id w;
               id := id w; once := once w; stdout := stdout w ++ warning;
               files := files w; shell := shell w |};
          o_ptr := 0; o_size := size; o_stored := None |})
  end.

(** [size == (~0) - 1]: the control opcode read through [ptr]. *)
Definition tracer_control (m : custom_mutex) (w : world) (ptr : Z)
    (obj : pointee) (size : Z) : custom_mutex * outcome :=
  let code := int_at obj in
  let '(m1, w1) :=
    if code =? 1 then
      ({| recursive := recursive m; map := _clear (map m) |},
       {| mutex := mutex w; stats := stats_t_new; timestamp_id := create_id w;
          id := create_id w; once := once w; stdout := stdout w;
          files := files w; shell := shell w |})
    else (m, w) in
  (m1, {| o_world := w1; o_ptr := ptr; o_size := size;
          o_stored := if code =? 2 then Some (StoredStats (stats w1)) else None |}).

(** [size == (~0) - 2]: the size opcode. *)
Definition tracer_size (m : custom_mutex) (w : world) (ptr : Z)
  : custom_mutex * outcome :=
  match map m !! ptr with
  | Some (first, _) =>
      (m, {| o_world := w; o_ptr := ptr;
             o_size := match first with Some l => leak_size l | None => 0 end;
             o_stored := None |})
  | None => (m, {| o_world := w; o_ptr := 0; o_size := 0; o_stored := None |})
  end.

(** [size == (~0) - 3]: the report is generated and its result is
    assigned to the string behind [ptr]. *)
Definition tracer_report (cfg : settings_t) (pf : platform)
    (m : custom_mutex) (w : world) (ptr size : Z) : custom_mutex * outcome :=
  let r := _report cfg pf (timestamp_id w) (map m) in
  (m, {| o_world :=
           {| mutex := mutex w; stats := stats w; timestamp_id := timestamp_id w;
              id := id w; once := once w; stdout := stdout w ++ printed r;
              files := files w ++ [(logfile r, html r)]; shell := shell w |};
         o_ptr := ptr; o_size := size;
         o_stored := Some (StoredString (logfile r)) |}).

(** [size == (~0) - 4]: the string behind [ptr] goes to the viewer. *)
Definition tracer_view (pf : platform) (m : custom_mutex) (w : world)
    (ptr : Z) (obj : pointee) (size : Z) : custom_mutex * outcome :=
  (m, {| o_world :=
           {| mutex := mutex w; stats := stats w; timestamp_id := timestamp_id w;
              id := id w; once := once w; stdout := stdout w; files := files w;
              shell := shell w ++ view_report pf (string_at obj) |};
         o_ptr := ptr; o_size := size; o_stored := None |}).

(** Any other [size]: an allocation.  A leak and a call stack are
    created and (re)inserted under [ptr], whatever was stored there, and
    the counters are raised. *)
Definition tracer_alloc (cfg : settings_t) (bt : list Z)
    (m : custom_mutex) (w : world) (ptr size : Z) : custom_mutex * outcome :=
  let l := {| leak_size := size; leak_id := create_id w |} in
  let usage' := wrap (usage (stats w) + size) in
  ({| recursive := recursive m;
      map := <[ptr := (Some l, Some (callstack_new cfg bt))]> (map m) |},
   {| o_world :=
        {| mutex := mutex w;
           stats := {| usage := usage';
                       leaks := wrap (leaks (stats w) + 1);
                       peak := if peak (stats w) <? usage' then usage'
                               else peak (stats w) |};
           timestamp_id := timestamp_id w; id := create_id w; once := once w;
           stdout := stdout w; files := files w; shell := shell w |};
      o_ptr := ptr; o_size := size; o_stored := None |}).

Definition tracer_body (cfg : settings_t) (pf : platform) (bt : list Z)
    (m : custom_mutex) (w : world) (ptr : Z) (obj : pointee) (size : Z)
  : custom_mutex * outcome :=
  if size =? sentinel 0 then tracer_free cfg pf bt m w ptr size
  else if size =? sentinel 1 then tracer_control m w ptr obj size
  else if size =? sentinel 2 then tracer_size m w ptr
  else if size =? sentinel 3 then tracer_report cfg pf m w ptr size
  else if size =? sentinel 4 then tracer_view pf m w ptr obj size
  else tracer_alloc cfg bt m w ptr size.

(** [return size = 0, ptr;] *)
Definition ignored (w : world) (ptr : Z) : outcome :=
  {| o_world := w; o_ptr := ptr; o_size := 0; o_stored := None |}.

(** [tracer( ptr, size )].  [bt] is the backtrace at the call and [obj]
    the object behind [ptr]. *)
Definition tracer (cfg : settings_t) (pf : platform) (w : world)
    (bt : list Z) (ptr : Z) (obj : pointee) (size : Z) : outcome :=
  if negb (kTraceyEnabled cfg) then ignored w ptr
  else
    let w := static_m w in
    if ptr =? 0 then ignored w ptr
    else
      match mutex w with
      | Built m =>
          match try_lock m with
          | (false, _) => ignored w ptr
          | (true, m) =>
              let w := webserver_once cfg pf w in
              let '(m, o) := tracer_body cfg pf bt m w ptr obj size in
              {| o_world := with_mutex (unlock m) (o_world o);
                 o_ptr := o_ptr o; o_size := o_size o; o_stored := o_stored o |}
          end
      | _ => ignored w ptr
      end.

(** ** The public entry points *)

Definition watch (cfg : settings_t) (pf : platform) (w : world)
    (bt : list Z) (ptr size : Z) : world * Z :=
  (o_world (tracer cfg pf w bt ptr (host pf ptr) size), ptr).

Definition forget (cfg : settings_t) (pf : platform) (w : world)
    (bt : list Z) (ptr : Z) : world * Z :=
  (o_world (tracer cfg pf w bt ptr (host pf ptr) (sentinel 0)), ptr).

(** In the remaining entry points [ptr] is the address of a local
    object, which is never null: [local] is that address. *)

(** [restart()]: the local is a [size_t] holding 1, whose first [int] is
    1 where the low bytes come first. *)
Definition restart (cfg : settings_t) (pf : platform) (w : world)
    (bt : list Z) (local : positive) : world :=
  o_world (tracer cfg pf w bt (Z.pos local)
                  {| int_at := 1; string_at := EmptyString |} (sentinel 1)).

(** [summary()]: the local is a fresh [stats_t], and the call is made
    with [(~0) - 2]. *)
Definition summary (cfg : settings_t) (pf : platform) (w : world)
    (bt : list Z) (local : positive) : world * stats_t :=
  let o := tracer cfg pf w bt (Z.pos local)
                  {| int_at := 0; string_at := EmptyString |} (sentinel 2) in
  (o_world o,
   match o_stored o with
   | Some (StoredStats st) => st
   | _ => stats_t_new
   end).

(** [report()]: the local is an empty [tracey::string].  The definition
    is the call of [tracer] and the string that comes back.  The copy
    that [return rep] makes after the call is not in it: with the memory
    operators replaced that copy is allocated and freed through [watch]
    and [forget], which leaves one more entry in the map and may raise
    the peak. *)
Definition report (cfg : settings_t) (pf : platform) (w : world)
    (bt : list Z) (local : positive) : world * string :=
  let o := tracer cfg pf w bt (Z.pos local)
                  {| int_at := 0; string_at := EmptyString |} (sentinel 3) in
  (o_world o,
   match o_stored o with
   | Some (StoredString rep) => rep
   | _ => EmptyString
   end).

(** [view( report )]: the local is a copy of the argument.  The
    definition is the call of [tracer]; the copy is made before it, and
    with the memory operators replaced its allocations go through
    [watch] and [forget] like those of [report()]. *)
Definition view (cfg : settings_t) (pf : platform) (w : world)
    (bt : list Z) (local : positive) (report : string) : world :=
  o_world (tracer cfg pf w bt (Z.pos local)
                  {| int_at := 0; string_at := report |} (sentinel 4)).

(** ** Vocabulary of the statements *)

(** The map of the registry; before the static is constructed, and after
    it is destroyed, there is none. *)
Definition registry (w : world) : gmap Z leak_full :=
  match mutex w with
  | Built m => map m
  | _ => ∅
  end.

(** The allocation record held for an address: the leak its entry points
    to.  An entry whose pointers were deleted and nulled holds none. *)
Definition record (w : world) (p : Z) : option leak :=
  match registry w !! p with
  | Some (Some l, _) => Some l
  | _ => None
  end.

(** A call from outside the tracer can take the lock: the static is not
    destroyed and the reentrancy flag is down. *)
Definition enterable (w : world) : bool :=
  match mutex w with
  | Unbuilt => true
  | Built m => negb (recursive m)
  | Destroyed => false
  end.

(** The state in which [tracer] runs the body of a call that entered. *)
Definition entered (cfg : settings_t) (pf : platform) (w : world) : world :=
  webserver_once cfg pf (static_m w).

Definition held (w : world) : custom_mutex :=
  {| recursive := true; map := registry w |}.

(** The report that [report()] builds in a state. *)
Definition report_of (cfg : settings_t) (pf : platform) (w : world) : report_t :=
  _report cfg pf (timestamp_id w) (registry w).

(** *** Sequences of calls *)

Inductive call :=
| Watch (bt : list Z) (ptr size : Z)
| Forget (bt : list Z) (ptr : Z).

Definition step (cfg : settings_t) (pf : platform) (w : world) (c : call) : world :=
  match c with
  | Watch bt ptr size => (watch cfg pf w bt ptr size).1
  | Forget bt ptr => (forget cfg pf w bt ptr).1
  end.

Definition run (cfg : settings_t) (pf : platform) (w : world) (t : list call) : world :=
  fold_left (step cfg pf) t w.

(** The [watch] calls not yet matched by a [forget], as address and
    size, newest first. *)
Definition pending_step (live : list (Z * Z)) (c : call) : list (Z * Z) :=
  match c with
  | Watch _ ptr size => (ptr, size) :: live
  | Forget _ ptr => List.filter (fun e => negb (e.1 =? ptr)) live
  end.


Definition is_pending (ptr : Z) (live : list (Z * Z)) : bool :=
  existsb (fun e => e.1 =? ptr) live.

Fixpoint size_of (ptr : Z) (live : list (Z * Z)) : option Z :=
  match live with
  | [] => None
  | (q, s) :: rest => if q =? ptr then Some s else size_of ptr rest
  end.

Fixpoint total (live : list (Z * Z)) : Z :=
  match live with
  | [] => 0
  | (_, s) :: rest => s + total rest
  end.

(** A size that is none of the five sentinels of the dispatcher. *)
Definition plain_size (size : Z) : bool := (0 <=? size) && (size <? SIZE_MAX - 4).

(** A sequence of matching pairs: an address is watched (non-null, with
    a plain size) only while it is not live, and forgotten only while it
    is. *)
Fixpoint paired (live : list (Z * Z)) (t : list call) : bool :=
  match t with
  | [] => true
  | c :: rest =>
      match c with
      | Watch _ ptr size =>
          negb (ptr =? 0) && plain_size size && negb (is_pending ptr live)
      | Forget _ ptr => is_pending ptr live
      end && paired (pending_step live c) rest
  end.

(** No address occurs twice, none is null, no size is negative. *)
Fixpoint distinct (live : list (Z * Z)) : bool :=
  match live with
  | [] => true
  | (q, s) :: rest =>
      negb (q =? 0) && (0 <=? s) && negb (is_pending q rest) && distinct rest
  end.

(** The state [w] holds exactly the records of [live], and its counters
    are their number and the sum of their sizes. *)
Definition tracks (w : world) (live : list (Z * Z)) : Prop :=
  enterable w = true
  /\ distinct live = true
  /\ (forall p, leak_size <$> record w p = size_of p live)
  /\ (forall p, size_of p live = None ->
                 registry w !! p = None \/ registry w !! p = Some (None, None))
  /\ usage (stats w) = wrap (total live)
  /\ leaks (stats w) = wrap (Z.of_nat (length live)).

(** The branch of the dispatcher that belongs to sentinel
    [SIZE_MAX - k]. *)
Definition opcode_branch (cfg : settings_t) (pf : platform) (bt : list Z)
    (k : Z) (m : custom_mutex) (w : world) (ptr : Z) (obj : pointee) (size : Z)
  : custom_mutex * outcome :=
  match k with
  | 0 => tracer_free cfg pf bt m w ptr size
  | 1 => tracer_control m w ptr obj size
  | 2 => tracer_size m w ptr
  | 3 => tracer_report cfg pf m w ptr size
  | _ => tracer_view pf m w ptr obj size
  end.

(** *** The score as the buckets read *)

(** The percentage and the buckets in the words of the description: the
    first bucket that matches wins. *)
Definition pct_of (leaks total_allocations : Z) : Q :=
  (100 * inject_Z leaks / inject_Z total_allocations)%Q.

Definition bucket (pct : Q) : string :=
  if Qeq_bool pct 0 then "perfect!"
  else if Qle_bool pct (5 # 4) then "excellent"
  else if Qle_bool pct (5 # 2) then "good"
  else if Qle_bool pct 5 then "poor"
  else if Qle_bool pct 10 then "mediocre"
  else "lame".

(** *** Trees *)

(** The sum of [value] over the direct children of a node. *)
Definition children_sum (t : tree) : Z :=
  fold_left (fun acc kc => acc + get kc.2) (children t) 0.

(** *** A platform and settings to run examples on *)

Definition demo_platform : platform := {|
  resolve_stack_trace := List.map (fun f => "fn" +:+ show f);
  show_ptr := show;
  get_temp_pathfile := "/tmp/fileAbCdEf";
  view_format := Some ("xdg-open " +:+ p1);
  settings_text := says +:+ version +:+ " ready" +:+ LF;
  peek_int := fun _ => 0;
  peek_string := fun _ => EmptyString
|}.

(** The default settings with [kTraceyReportWildPointers] turned on. *)
Definition wild_settings : settings_t := {|
  kTraceyEnabled := true;
  kTraceyWebserver := true;
  kTraceyReportWildPointers := true;
  kTraceyStacktraceMaxTraces := 128;
  kTraceyStacktraceSkipBegin := 0;
  kTraceyStacktraceSkipEnd := 0;
  kTraceyCharLinefeed := LF;
  kTraceyCharTab := TAB
|}.

(** A state inside a call: the lock is held. *)
Definition locked_world : world :=
  with_mutex {| recursive := true; map := ∅ |} initial_world.

(** ** The rest of [tracey::tree] *)

(** [has( k )] and [at( k )] alias [operator[]]: a search that inserts
    nothing; [at] answers a missing key with the tree [invalid()], which
    is reset to a fresh tree on every use. *)
Definition has (k : Z) (t : tree) : bool :=
  match find_child k (children t) with
  | Some _ => true
  | None => false
  end.

Definition tree_at (k : Z) (t : tree) : tree :=
  match find_child k (children t) with
  | Some c => c
  | None => tree_new
  end.

(** [map::erase( k )] on the ordered map. *)
Fixpoint drop_child (k : Z) (cs : list (Z * tree)) : list (Z * tree) :=
  match cs with
  | [] => []
  | (k', c) :: rest => if k' =? k then rest else (k', c) :: drop_child k rest
  end.

(** [erase( k )]. *)
Definition erase (k : Z) (t : tree) : tree :=
  Node (get t) (drop_child k (children t)).

(** [map::insert( pair )]: a key that is present keeps its subtree. *)
Definition add_child (cs : list (Z * tree)) (kc : Z * tree) : list (Z * tree) :=
  match find_child kc.1 cs with
  | Some _ => cs
  | None => put_child kc.1 kc.2 cs
  end.

(** The copy constructor, which is [this = t] on a fresh tree, alias
    [clone] and [assign]: the map is cleared, a copy of every child of
    [t] is inserted, and the value of [t] is taken. *)
Fixpoint clone (t : tree) : tree :=
  match t with
  | Node v cs =>
      Node v (fold_left (fun acc kc => add_child acc (fst kc, clone (snd kc))) cs [])
  end.

(** [this += t] alias [merge( t )]: a copy of every child of [t] is
    inserted into the map of [this], and the value of [t] is taken. *)
Definition merge (t this : tree) : tree :=
  Node (get t)
       (fold_left (fun acc kc => add_child acc (fst kc, clone (snd kc)))
                  (children t) (children this)).

(** [collapse()]: a node with exactly one child is replaced by the
    collapse of that child; any other node becomes a fresh tree that
    holds, under each key, the collapse of the child merged in and then
    the value of the child. *)
Fixpoint collapse (t : tree) : tree :=
  match t with
  | Node _ cs =>
      match cs with
      | [(_, c)] => collapse c
      | _ =>
          Node 0
            (fold_left
               (fun acc kc =>
                  put_child (fst kc)
                    (Node (get (snd kc))
                          (children (merge (collapse (snd kc))
                                           (child_or_new (fst kc) (Node 0 acc)))))
                    acc)
               cs [])
      end
  end.

(** *** Shapes of trees *)

(** The keys of a map come in strictly ascending order. *)
Fixpoint ascending (ks : list Z) : bool :=
  match ks with
  | a :: rest =>
      match rest with
      | b :: _ => (a <? b) && ascending rest
      | [] => true
      end
  | [] => true
  end.

(** A tree all of whose maps are in order. *)
Fixpoint ordered (t : tree) : bool :=
  match t with
  | Node _ cs =>
      ascending (List.map fst cs) && forallb (fun kc => ordered (snd kc)) cs
  end.

(** The sum of the values of the nodes without children. *)
Fixpoint leaves_sum (t : tree) : Z :=
  match t with
  | Node v cs =>
      match cs with
      | [] => v
      | _ => fold_left (fun acc kc => acc + leaves_sum (snd kc)) cs 0
      end
  end.

(** Every key of a tree, at any depth. *)
Fixpoint keys (t : tree) : list Z :=
  match t with
  | Node _ cs => flat_map (fun kc => fst kc :: keys (snd kc)) cs
  end.

(** A key that is one of the two branch keys or a frame of the set. *)
Definition covered (fs : gset Z) (k : Z) : Prop :=
  k = BOTTOM_TOP \/ k = TOP_BOTTOM \/ k ∈ fs.

(** No node has exactly one child. *)
Fixpoint branching (t : tree) : bool :=
  match t with
  | Node _ cs =>
      negb (length cs =? 1)%nat && forallb (fun kc => branching (snd kc)) cs
  end.

(** ** More of the tracer *)

(** The size opcode, as a caller of [tracer] uses it: the pointer that
    comes back and the size written to the reference. *)
Definition size_query (cfg : settings_t) (pf : platform) (w : world)
    (bt : list Z) (ptr : Z) : world * Z * Z :=
  let o := tracer cfg pf w bt ptr (host pf ptr) (sentinel 2) in
  (o_world o, o_ptr o, o_size o).

(** [nop()], without the allocator around it: [ptr] is what
    [tracey::malloc( 1 )] returned. *)
Definition nop (cfg : settings_t) (pf : platform) (w : world)
    (bt : list Z) (ptr : Z) : world :=
  (forget cfg pf (watch cfg pf w bt ptr 1).1 bt ptr).1.

(** *** Any sequence of calls of the public entry points *)

Inductive entry :=
| EWatch (bt : list Z) (ptr size : Z)
| EForget (bt : list Z) (ptr : Z)
| ERestart (bt : list Z) (local : positive)
| ESummary (bt : list Z) (local : positive)
| EReport (bt : list Z) (local : positive)
| EView (bt : list Z) (local : positive) (text : string).

Definition enter (cfg : settings_t) (pf : platform) (w : world) (e : entry) : world :=
  match e with
  | EWatch bt ptr size => (watch cfg pf w bt ptr size).1
  | EForget bt ptr => (forget cfg pf w bt ptr).1
  | ERestart bt local => restart cfg pf w bt local
  | ESummary bt local => (summary cfg pf w bt local).1
  | EReport bt local => (report cfg pf w bt local).1
  | EView bt local text => view cfg pf w bt local text
  end.

Definition session (cfg : settings_t) (pf : platform) (w : world)
    (es : list entry) : world :=
  fold_left (enter cfg pf) es w.

(** What every entry of the map looks like between calls: both pointers
    null, or both set with the id of the leak between the watermark and
    the id counter. *)
Definition entry_ok (w : world) (v : leak_full) : Prop :=
  match v with
  | (Some l, Some _) => timestamp_id w <= leak_id l <= id w
  | (None, None) => True
  | _ => False
  end.

Definition consistent (w : world) : Prop :=
  enterable w = true
  /\ 0 <= timestamp_id w <= id w
  /\ (forall p v, registry w !! p = Some v -> entry_ok w v).

(** *** What [collect_leaks] picks *)

(** The tuple that an entry of the map gives, if any. *)
Definition picked (timestamp_id : Z) (e : Z * leak_full) : list tuple :=
  match e with
  | (a, (Some l, Some c)) =>
      if timestamp_id <=? leak_id l then [{| addr := a; lk := l; cs := c |}]
      else []
  | _ => []
  end.

Definition sizes_sum (l : list tuple) : Z :=
  fold_right (fun t acc => leak_size (lk t) + acc) 0 l.

(** *** What the score counts *)

(** An entry of the map that is a leak for a report: both pointers set,
    and the id not below the watermark. *)
Definition is_leak (timestamp_id : Z) (e : Z * leak_full) : bool :=
  match e.2 with
  | (Some l, Some _) => timestamp_id <=? leak_id l
  | _ => false
  end.

(** The number of such entries of a map. *)
Definition leaks_in (timestamp_id : Z) (m : gmap Z leak_full) : Z :=
  Z.of_nat (length (List.filter (is_leak timestamp_id) (map_to_list m))).

(** The allocations ever observed in a sequence of calls: its [watch]
    calls. *)
Definition allocations_ever (es : list entry) : Z :=
  Z.of_nat (length (List.filter
                      (fun e => match e with EWatch _ _ _ => true | _ => false end)
                      es)).

(** One address watched and forgotten 79 times, then another address
    watched and kept. *)
Definition churn : list entry :=
  List.concat (List.repeat [EWatch [100] 1 8; EForget [100] 1] 79)
  ++ [EWatch [100] 2 8].

(** *** Sequences whose sizes fit *)

(** The sum of the pending sizes stays below 2^64 after every call. *)
Fixpoint fits (live : list (Z * Z)) (t : list call) : bool :=
  match t with
  | [] => true
  | c :: rest =>
      (total (pending_step live c) <? SIZE_MOD) && fits (pending_step live c) rest
  end.

(** * Properties *)

(** ** The sentinels *)

Lemma sentinel_values :
  sentinel 0 = SIZE_MAX /\ sentinel 1 = SIZE_MAX - 1 /\ sentinel 2 = SIZE_MAX - 2
  /\ sentinel 3 = SIZE_MAX - 3 /\ sentinel 4 = SIZE_MAX - 4.
Proof. repeat split; reflexivity. Qed.

Lemma plain_size_body cfg pf bt m w p obj s :
  plain_size s = true ->
  tracer_body cfg pf bt m w p obj s = tracer_alloc cfg bt m w p s.
Proof.
  unfold plain_size, tracer_body. intros H.
  apply andb_prop in H as [_ H]. apply Z.ltb_lt in H.
  assert (Hv := sentinel_values). destruct Hv as (E0 & E1 & E2 & E3 & E4).
  rewrite E0, E1, E2, E3, E4.
  destruct (Z.eqb_spec s SIZE_MAX); [lia|].
  destruct (Z.eqb_spec s (SIZE_MAX - 1)); [lia|].
  destruct (Z.eqb_spec s (SIZE_MAX - 2)); [lia|].
  destruct (Z.eqb_spec s (SIZE_MAX - 3)); [lia|].
  destruct (Z.eqb_spec s (SIZE_MAX - 4)); [lia|].
  reflexivity.
Qed.

(** ** Arithmetic on [size_t] *)

Lemma wrap_idemp a : wrap (wrap a) = wrap a.
Proof. unfold wrap. apply Zmod_mod. Qed.

Lemma wrap_add_l a b : wrap (wrap a + b) = wrap (a + b).
Proof. unfold wrap. apply Zplus_mod_idemp_l. Qed.

Lemma wrap_sub_l a b : wrap (wrap a - b) = wrap (a - b).
Proof. unfold wrap. apply Zminus_mod_idemp_l. Qed.

Lemma wrap_small a : 0 <= a < SIZE_MOD -> wrap a = a.
Proof. unfold wrap. apply Z.mod_small. Qed.

(** ** Entering the tracer *)

(** A call that is enabled, has a non-null pointer and finds the flag
    down runs the body with the lock held, then unlocks. *)
Lemma tracer_entered cfg pf w bt p obj s :
  kTraceyEnabled cfg = true -> p <> 0 -> enterable w = true ->
  tracer cfg pf w bt p obj s =
    let mo := tracer_body cfg pf bt (held w) (entered cfg pf w) p obj s in
    {| o_world := with_mutex (unlock mo.1) (o_world mo.2);
       o_ptr := o_ptr mo.2; o_size := o_size mo.2; o_stored := o_stored mo.2 |}.
Proof.
  intros Hen Hp Hw. unfold tracer, entered, held, registry, enterable in *.
  rewrite Hen. simpl negb. cbv iota.
  destruct (Z.eqb_spec p 0) as [|_]; [contradiction|].
  unfold static_m. destruct (mutex w) as [|m|] eqn:Hm; try discriminate.
  - simpl. destruct (tracer_body _ _ _ _ _ _ _ _); reflexivity.
  - rewrite Hm. unfold try_lock. apply negb_true_iff in Hw. rewrite Hw.
    destruct (tracer_body _ _ _ _ _ _ _ _); reflexivity.
Qed.

(** A call that finds the flag up is ignored. *)
Lemma tracer_reentrant cfg pf w m bt p obj s :
  mutex w = Built m -> recursive m = true ->
  tracer cfg pf w bt p obj s = ignored w p.
Proof.
  intros Hm Hr. unfold tracer, static_m. rewrite Hm.
  destruct (kTraceyEnabled cfg); simpl; [|reflexivity].
  destruct (p =? 0); [reflexivity|].
  rewrite Hm. unfold try_lock. rewrite Hr. reflexivity.
Qed.

(** C9.  While the reentrancy flag is up, a nested [watch] or [forget]
    returns its pointer and leaves the whole state as it was: the map of
    the registry, the counters and the reset watermark, and with them
    everything else. *)
Theorem reentrant_call_ignored cfg pf w m bt p s :
  mutex w = Built m -> recursive m = true ->
  watch cfg pf w bt p s = (w, p) /\ forget cfg pf w bt p = (w, p).
Proof.
  intros Hm Hr. unfold watch, forget.
  rewrite !(tracer_reentrant cfg pf w m) by assumption.
  split; reflexivity.
Qed.

Lemma reentrant_call_ignored_witness :
  watch default_settings demo_platform locked_world [100; 200] 1 8
    = (locked_world, 1)
  /\ forget default_settings demo_platform locked_world [100; 200] 1
    = (locked_world, 1).
Proof.
  apply (reentrant_call_ignored default_settings demo_platform locked_world
           {| recursive := true; map := ∅ |}); reflexivity.
Defined.

(** ** The counters and [summary] *)

(** [summary] calls the dispatcher with the size opcode, which stores
    nothing through the pointer: the result is the fresh local. *)
Lemma summary_result cfg pf w bt local :
  (summary cfg pf w bt local).2 = stats_t_new.
Proof.
  unfold summary, tracer. simpl.
  destruct (kTraceyEnabled cfg); simpl; [|reflexivity].
  destruct (mutex (static_m w)); try reflexivity.
  destruct (try_lock m) as [[] m']; [|reflexivity].
  unfold tracer_body.
  change (sentinel 2 =? sentinel 0) with false.
  change (sentinel 2 =? sentinel 1) with false.
  change (sentinel 2 =? sentinel 2) with true. cbv iota.
  unfold tracer_size.
  destruct (map m' !! Z.pos local) as [[first second]|]; reflexivity.
Qed.

(** C1.  After [watch(0x1,8); forget(0x1)] the running counters are
    [{live_count = 0, live_bytes = 0, peak_bytes = 8}], but [summary], the
    public stats operation, returns all zeros: it is not a snapshot of the
    counters. *)
Theorem summary_after_watch_forget pf bt local :
  let w := (forget default_settings pf
              (watch default_settings pf initial_world bt 1 8).1 bt 1).1 in
  stats w = {| usage := 0; leaks := 0; peak := 8 |}
  /\ (summary default_settings pf w bt local).2
     = {| usage := 0; leaks := 0; peak := 0 |}.
Proof.
  split; [reflexivity | apply summary_result].
Qed.

(** ** What one call does to the registry and the counters *)

Lemma entered_fields cfg pf w :
  registry (entered cfg pf w) = registry w
  /\ stats (entered cfg pf w) = stats w
  /\ timestamp_id (entered cfg pf w) = timestamp_id w
  /\ id (entered cfg pf w) = id w.
Proof.
  unfold entered, webserver_once, static_m, registry.
  destruct w as [mu st ts i on so fi sh]. simpl.
  destruct mu, (kTraceyWebserver cfg), on; simpl; repeat split; reflexivity.
Qed.

Lemma registry_with_mutex m w : registry (with_mutex m w) = map m.
Proof. reflexivity. Qed.

Lemma enterable_unlocked m w : enterable (with_mutex (unlock m) w) = true.
Proof. reflexivity. Qed.

(** A [watch] with a plain size that enters. *)
Lemma watch_plain cfg pf w bt p s :
  kTraceyEnabled cfg = true -> p <> 0 -> enterable w = true ->
  plain_size s = true ->
  let w' := (watch cfg pf w bt p s).1 in
  registry w' =
    <[p := (Some {| leak_size := s; leak_id := wrap (id w + 1) |},
            Some (callstack_new cfg bt))]> (registry w)
  /\ stats w' =
       {| usage := wrap (usage (stats w) + s);
          leaks := wrap (leaks (stats w) + 1);
          peak := if peak (stats w) <? wrap (usage (stats w) + s)
                  then wrap (usage (stats w) + s) else peak (stats w) |}
  /\ enterable w' = true
  /\ timestamp_id w' = timestamp_id w
  /\ id w' = wrap (id w + 1).
Proof.
  intros Hen Hp Hw Hs. unfold watch. cbn [fst].
  rewrite tracer_entered by assumption.
  rewrite plain_size_body by assumption.
  destruct (entered_fields cfg pf w) as (Er & Es & Et & Ei).
  unfold tracer_alloc, create_id. cbn [fst snd o_world].
  rewrite registry_with_mutex, enterable_unlocked. cbn -[wrap].
  rewrite Es, Et, Ei. repeat split.
Qed.

(** A [forget] that enters and finds an entry. *)
Lemma forget_found cfg pf w bt p first second :
  kTraceyEnabled cfg = true -> p <> 0 -> enterable w = true ->
  registry w !! p = Some (first, second) ->
  let w' := (forget cfg pf w bt p).1 in
  registry w' = <[p := (None, None)]> (registry w)
  /\ stats w' =
       match first with
       | Some l => {| usage := wrap (usage (stats w) - leak_size l);
                      leaks := wrap (leaks (stats w) - 1);
                      peak := peak (stats w) |}
       | None => stats w
       end
  /\ enterable w' = true
  /\ timestamp_id w' = timestamp_id w
  /\ id w' = id w
  /\ stdout w' = stdout (entered cfg pf w).
Proof.
  intros Hen Hp Hw Hf. unfold forget. cbn [fst].
  rewrite tracer_entered by assumption.
  destruct (entered_fields cfg pf w) as (Er & Es & Et & Ei).
  unfold tracer_body. change (sentinel 0 =? sentinel 0) with true. cbv iota.
  unfold tracer_free, held. cbn [map]. rewrite Hf.
  cbn [fst snd o_world]. rewrite registry_with_mutex, enterable_unlocked.
  cbn -[wrap]. rewrite Es, Et, Ei. repeat split.
Qed.

(** A [forget] that enters and finds no entry. *)
Lemma forget_absent cfg pf w bt p :
  kTraceyEnabled cfg = true -> p <> 0 -> enterable w = true ->
  registry w !! p = None ->
  let o := tracer cfg pf w bt p (host pf p) (sentinel 0) in
  registry (o_world o) = registry w
  /\ stats (o_world o) = stats w
  /\ enterable (o_world o) = true
  /\ timestamp_id (o_world o) = timestamp_id w
  /\ id (o_world o) = id w
  /\ stdout (o_world o) =
       stdout (entered cfg pf w)
       ++ (if kTraceyReportWildPointers cfg
           then [wild_pointer_warning cfg pf bt] else [])
  /\ o_ptr o = 0.
Proof.
  intros Hen Hp Hw Hf. cbv zeta.
  rewrite tracer_entered by assumption.
  destruct (entered_fields cfg pf w) as (Er & Es & Et & Ei).
  unfold tracer_body. change (sentinel 0 =? sentinel 0) with true. cbv iota.
  unfold tracer_free, held. cbn [map]. rewrite Hf.
  cbn [fst snd o_world o_ptr]. rewrite registry_with_mutex, enterable_unlocked.
  cbn -[wrap]. rewrite Es, Et, Ei. repeat split.
Qed.

(** ** Watching an address twice *)

(** The second [watch] of an address replaces the entry and raises the
    counters again; the [forget] that follows releases the second size
    only. *)
Lemma double_watch_counters cfg pf w bt p s1 s2 :
  kTraceyEnabled cfg = true -> p <> 0 -> enterable w = true ->
  plain_size s1 = true -> plain_size s2 = true ->
  let w1 := (watch cfg pf w bt p s1).1 in
  let w2 := (watch cfg pf w1 bt p s2).1 in
  let w3 := (forget cfg pf w2 bt p).1 in
  record w3 p = None
  /\ leaks (stats w3) = wrap (leaks (stats w) + 1)
  /\ usage (stats w3) = wrap (usage (stats w) + s1).
Proof.
  intros Hen Hp Hw H1 H2 w1 w2 w3.
  destruct (watch_plain cfg pf w bt p s1 Hen Hp Hw H1) as (R1 & S1 & E1 & _).
  fold w1 in R1, S1, E1.
  destruct (watch_plain cfg pf w1 bt p s2 Hen Hp E1 H2) as (R2 & S2 & E2 & _).
  fold w2 in R2, S2, E2.
  assert (Hf : registry w2 !! p =
               Some (Some {| leak_size := s2; leak_id := wrap (id w1 + 1) |},
                     Some (callstack_new cfg bt)))
    by (rewrite R2; apply lookup_insert_eq).
  destruct (forget_found cfg pf w2 bt p _ _ Hen Hp E2 Hf) as (R3 & S3 & _).
  fold w3 in R3, S3.
  unfold record. rewrite R3, lookup_insert_eq, S3, S2, S1. cbn -[wrap].
  repeat split.
  - rewrite wrap_sub_l. replace (wrap (leaks (stats w) + 1) + 1 - 1)
      with (wrap (leaks (stats w) + 1)) by lia. apply wrap_idemp.
  - rewrite wrap_sub_l. replace (wrap (usage (stats w) + s1) + s2 - s2)
      with (wrap (usage (stats w) + s1)) by lia. apply wrap_idemp.
Qed.

(** C2.  After [watch(0x3,10); watch(0x3,20); forget(0x3)] the counters
    are [live_count = 1] and [live_bytes = 10], not zero: the accounting
    of the first record was not released when the second replaced it. *)
Theorem double_watch_scenario pf bt :
  let w1 := (watch default_settings pf initial_world bt 3 10).1 in
  let w2 := (watch default_settings pf w1 bt 3 20).1 in
  let w3 := (forget default_settings pf w2 bt 3).1 in
  record w3 3 = None
  /\ stats w3 = {| usage := 10; leaks := 1; peak := 30 |}.
Proof. split; reflexivity. Qed.

(** ** Sequences of matching pairs *)

Lemma size_of_pending p live :
  is_pending p live = true -> exists s, size_of p live = Some s.
Proof.
  induction live as [|[q s] rest IH]; simpl; [discriminate|].
  destruct (q =? p); simpl; eauto.
Qed.

Lemma size_of_not_pending p live :
  is_pending p live = false -> size_of p live = None.
Proof.
  induction live as [|[q s] rest IH]; simpl; [reflexivity|].
  destruct (q =? p); simpl; [discriminate | assumption].
Qed.

Lemma size_of_filter p q live :
  size_of q (List.filter (fun e => negb (e.1 =? p)) live)
  = if q =? p then None else size_of q live.
Proof.
  induction live as [|[a s] rest IH]; simpl.
  - destruct (q =? p); reflexivity.
  - destruct (Z.eqb_spec a p) as [->|Hap]; simpl.
    + rewrite IH. destruct (Z.eqb_spec q p) as [->|Hqp]; [reflexivity|].
      destruct (Z.eqb_spec p q); [congruence | reflexivity].
    + rewrite IH. destruct (Z.eqb_spec a q) as [->|Haq]; [|reflexivity].
      destruct (Z.eqb_spec q p); [congruence | reflexivity].
Qed.

Lemma is_pending_filter p q live :
  is_pending q live = false ->
  is_pending q (List.filter (fun e => negb (e.1 =? p)) live) = false.
Proof.
  induction live as [|[a s] rest IH]; simpl; [reflexivity|].
  intros H. apply orb_false_iff in H as [H1 H2].
  destruct (a =? p); simpl; [auto|]. rewrite H1. simpl. auto.
Qed.

Lemma filter_not_pending p live :
  is_pending p live = false ->
  List.filter (fun e => negb (e.1 =? p)) live = live.
Proof.
  induction live as [|[a s] rest IH]; simpl; [reflexivity|].
  intros H. apply orb_false_iff in H as [H1 H2].
  rewrite H1. simpl. f_equal. auto.
Qed.

Lemma distinct_filter p live :
  distinct live = true ->
  distinct (List.filter (fun e => negb (e.1 =? p)) live) = true.
Proof.
  induction live as [|[a s] rest IH]; simpl; [reflexivity|].
  intros H. apply andb_prop in H as [H Hd]. apply andb_prop in H as [H Hn].
  destruct (a =? p); simpl; [auto|].
  rewrite H, IH by assumption. simpl.
  apply negb_true_iff in Hn. rewrite (is_pending_filter p a rest Hn). reflexivity.
Qed.

Lemma total_filter p s live :
  distinct live = true -> size_of p live = Some s ->
  total (List.filter (fun e => negb (e.1 =? p)) live) = total live - s.
Proof.
  induction live as [|[a s'] rest IH]; simpl; [discriminate|].
  intros H Hs. apply andb_prop in H as [H Hd]. apply andb_prop in H as [_ Hn].
  apply negb_true_iff in Hn.
  destruct (Z.eqb_spec a p) as [->|Hap]; simpl.
  - injection Hs as ->. rewrite (filter_not_pending p rest Hn). lia.
  - rewrite IH by assumption. lia.
Qed.

Lemma length_filter_pending p s live :
  distinct live = true -> size_of p live = Some s ->
  Z.of_nat (length (List.filter (fun e => negb (e.1 =? p)) live))
  = Z.of_nat (length live) - 1.
Proof.
  induction live as [|[a s'] rest IH]; simpl length; [discriminate|].
  simpl. intros H Hs. apply andb_prop in H as [H Hd]. apply andb_prop in H as [_ Hn].
  apply negb_true_iff in Hn.
  destruct (Z.eqb_spec a p) as [->|Hap]; simpl.
  - rewrite (filter_not_pending p rest Hn). lia.
  - rewrite Nat2Z.inj_succ. rewrite IH by assumption. lia.
Qed.

Lemma total_nonneg live : distinct live = true -> 0 <= total live.
Proof.
  induction live as [|[a s] rest IH]; simpl; [lia|].
  intros H. apply andb_prop in H as [H Hd]. apply andb_prop in H as [H _].
  apply andb_prop in H as [_ H]. apply Z.leb_le in H. specialize (IH Hd). lia.
Qed.

Lemma distinct_not_null live : distinct live = true -> size_of 0 live = None.
Proof.
  induction live as [|[a s] rest IH]; simpl; [reflexivity|].
  intros H. apply andb_prop in H as [H Hd]. apply andb_prop in H as [H _].
  apply andb_prop in H as [H _]. apply negb_true_iff in H. rewrite H. auto.
Qed.

Lemma tracks_initial : tracks initial_world [].
Proof.
  unfold tracks, record, registry. simpl. repeat split; auto.
Qed.

(** One call of a sequence of matching pairs keeps the state in step
    with the list of pending calls. *)
Lemma step_tracks cfg pf w live c :
  kTraceyEnabled cfg = true ->
  tracks w live -> paired live [c] = true ->
  tracks (step cfg pf w c) (pending_step live c).
Proof.
  intros Hen (He & Hd & Hr & Hz & Hu & Hl) Hc. simpl in Hc.
  rewrite andb_true_r in Hc. destruct c as [bt p s | bt p]; cbn [step pending_step].
  - apply andb_prop in Hc as [Hc Hn]. apply andb_prop in Hc as [Hp Hs].
    apply negb_true_iff in Hp, Hn. apply Z.eqb_neq in Hp.
    destruct (watch_plain cfg pf w bt p s Hen Hp He Hs) as (R & S & E & _).
    unfold tracks. rewrite E, S. simpl usage. simpl leaks.
    assert (Hs' := Hs). unfold plain_size in Hs'.
    apply andb_prop in Hs' as [Hs0 _].
    repeat split.
    + simpl. rewrite Hd, Hn, Hs0. apply Z.eqb_neq in Hp. rewrite Hp. reflexivity.
    + intros q. unfold record. rewrite R. simpl.
      destruct (Z.eqb_spec p q) as [->|Hpq].
      * rewrite lookup_insert_eq. reflexivity.
      * rewrite lookup_insert_ne by assumption. apply Hr.
    + intros q. cbn [size_of]. rewrite R.
      destruct (Z.eqb_spec p q) as [->|Hpq]; [discriminate|].
      rewrite lookup_insert_ne by assumption. apply Hz.
    + rewrite Hu, wrap_add_l. f_equal. simpl. lia.
    + rewrite Hl, wrap_add_l. f_equal. simpl length. lia.
  - destruct (size_of_pending p live Hc) as [s Hs].
    assert (Hp : p <> 0).
    { intros ->. rewrite (distinct_not_null live Hd) in Hs. discriminate. }
    assert (Hrec := Hr p). rewrite Hs in Hrec. unfold record in Hrec.
    destruct (registry w !! p) as [[[l|] second]|] eqn:Hf; try discriminate.
    simpl in Hrec. injection Hrec as Hls.
    destruct (forget_found cfg pf w bt p _ _ Hen Hp He Hf) as (R & S & E & _).
    unfold tracks. rewrite E, S. simpl usage. simpl leaks.
    repeat split.
    + apply distinct_filter; assumption.
    + intros q. unfold record. rewrite R, size_of_filter.
      destruct (Z.eqb_spec q p) as [->|Hqp].
      * rewrite lookup_insert_eq. reflexivity.
      * rewrite lookup_insert_ne by congruence. apply Hr.
    + intros q. rewrite R, size_of_filter.
      destruct (Z.eqb_spec q p) as [->|Hqp].
      * rewrite lookup_insert_eq. auto.
      * rewrite lookup_insert_ne by congruence. apply Hz.
    + rewrite Hu, wrap_sub_l, (total_filter p s) by assumption. congruence.
    + rewrite Hl, wrap_sub_l, (length_filter_pending p s) by assumption.
      reflexivity.
Qed.


Lemma paired_app pre suf : forall live,
  paired live (pre ++ suf) = true -> paired live pre = true.
Proof.
  induction pre as [|c pre IH]; intros live H; [reflexivity|].
  simpl in *. apply andb_prop in H as [Hc H]. rewrite Hc. simpl. eauto.
Qed.



(** ** The report *)

Lemma append_assoc (a b c : string) : (a +:+ b) +:+ c = a +:+ b +:+ c.
Proof.
  induction a as [|x a IH]; [reflexivity|].
  change (String x ((a +:+ b) +:+ c) = String x (a +:+ b +:+ c)).
  f_equal. exact IH.
Qed.

(** The values that [_report] computes and the shape of what it writes. *)
Lemma report_fields cfg pf ts m :
  let r := _report cfg pf ts m in
  logfile r = get_temp_pathfile pf +:+ "xxx-tracey.html"
  /\ n_leak r = Z.of_nat (length (collect_leaks ts m).1)
  /\ wasted r = (collect_leaks ts m).2
  /\ score r = score_of (leaks_pct (n_leak r) (Z.of_nat (size m)))
  /\ exists body, html r = "<html><body><xmp>" +:+ body +:+ "</xmp></body></html>".
Proof.
  unfold _report.
  destruct (collect_leaks ts m) as [fl wa].
  destruct (build_trees cfg fl) as [tree0 fs].
  destruct (size fs =? 0)%nat; cbn [logfile n_leak wasted score html fst snd];
    (repeat split; []); eexists (_ +:+ _);
    rewrite (append_assoc "<html><body><xmp>");
    apply (f_equal (String.append "<html><body><xmp>"));
    symmetry; apply append_assoc.
Qed.

Lemma entered_outputs cfg pf w :
  files (entered cfg pf w) = files w /\ shell (entered cfg pf w) = shell w.
Proof.
  unfold entered, webserver_once, static_m.
  destruct w as [mu st ts i on so fi sh]. simpl.
  destruct mu, (kTraceyWebserver cfg), on; simpl; split; reflexivity.
Qed.

(** A [report()] that enters: the report of the state is written to a
    file, and the path of the file is the result. *)
Lemma report_run cfg pf w bt local :
  kTraceyEnabled cfg = true -> enterable w = true ->
  let r := report_of cfg pf w in
  (report cfg pf w bt local).2 = logfile r
  /\ files (report cfg pf w bt local).1 = files w ++ [(logfile r, html r)]
  /\ registry (report cfg pf w bt local).1 = registry w
  /\ stats (report cfg pf w bt local).1 = stats w.
Proof.
  intros Hen Hw. unfold report. cbn [fst snd].
  rewrite tracer_entered by (assumption || discriminate).
  destruct (entered_fields cfg pf w) as (Er & Es & Et & Ei).
  destruct (entered_outputs cfg pf w) as (Ef & _).
  unfold tracer_body.
  change (sentinel 3 =? sentinel 0) with false.
  change (sentinel 3 =? sentinel 1) with false.
  change (sentinel 3 =? sentinel 2) with false.
  change (sentinel 3 =? sentinel 3) with true. cbv iota.
  unfold tracer_report, held, report_of. cbn. rewrite Et, Ef, Es.
  repeat split.
Qed.

(** C5 as the code has it.  [report()] builds the textual report, writes
    it to a file whose name ends in [xxx-tracey.html], and returns the
    path of that file; it is the text written to the file that is
    wrapped in the envelope [<html><body><xmp>] ... [</xmp></body></html>]. *)
Theorem report_returns_path_of_enveloped_text cfg pf w bt local :
  kTraceyEnabled cfg = true -> enterable w = true ->
  let w' := (report cfg pf w bt local).1 in
  let rep := (report cfg pf w bt local).2 in
  rep = get_temp_pathfile pf +:+ "xxx-tracey.html"
  /\ exists body,
       files w' = files w
         ++ [(rep, "<html><body><xmp>" +:+ body +:+ "</xmp></body></html>")].
Proof.
  intros Hen Hw w' rep.
  destruct (report_run cfg pf w bt local Hen Hw) as (Hrep & Hfiles & _).
  destruct (report_fields cfg pf (timestamp_id w) (registry w))
    as (Hlog & _ & _ & _ & body & Hbody).
  fold (report_of cfg pf w) in Hlog, Hbody.
  subst w' rep. rewrite Hrep, Hfiles, Hlog. split; [reflexivity|].
  exists body. rewrite Hbody. reflexivity.
Qed.

Lemma report_returns_path_of_enveloped_text_witness :
  let w' := (report default_settings demo_platform initial_world [] 1%positive).1 in
  let rep := (report default_settings demo_platform initial_world [] 1%positive).2 in
  rep = get_temp_pathfile demo_platform +:+ "xxx-tracey.html"
  /\ exists body,
       files w' = files initial_world
         ++ [(rep, "<html><body><xmp>" +:+ body +:+ "</xmp></body></html>")].
Proof.
  apply (report_returns_path_of_enveloped_text default_settings demo_platform
           initial_world [] 1%positive); reflexivity.
Defined.

(** C5 as stated fails: the string that [report()] returns is a file
    name, not the report text, and it does not start with the envelope. *)
Lemma report_result_is_not_the_text :
  let rep := (report default_settings demo_platform initial_world [] 1%positive).2 in
  rep = "/tmp/fileAbCdEfxxx-tracey.html"
  /\ String.prefix "<html><body><xmp>" rep = false.
Proof. split; reflexivity. Qed.

(** ** Reset *)

(** A [restart()] that enters empties the map, zeroes the counters and
    moves the watermark to a fresh id. *)
Lemma restart_run cfg pf w bt local :
  kTraceyEnabled cfg = true -> enterable w = true ->
  let w1 := restart cfg pf w bt local in
  registry w1 = ∅
  /\ stats w1 = stats_t_new
  /\ timestamp_id w1 = wrap (id w + 1)
  /\ id w1 = wrap (id w + 1)
  /\ enterable w1 = true.
Proof.
  intros Hen Hw. unfold restart.
  rewrite tracer_entered by (assumption || discriminate).
  destruct (entered_fields cfg pf w) as (Er & Es & Et & Ei).
  unfold tracer_body.
  change (sentinel 1 =? sentinel 0) with false.
  change (sentinel 1 =? sentinel 1) with true. cbv iota.
  unfold tracer_control, create_id. cbn -[wrap]. rewrite Ei. repeat split.
Qed.

Lemma collect_leaks_empty ts : collect_leaks ts ∅ = ([], 0).
Proof. unfold collect_leaks, entries. rewrite map_to_list_empty. reflexivity. Qed.

Lemma collect_leaks_singleton ts p l c :
  collect_leaks ts {[p := (Some l, Some c)]}
  = if ts <=? leak_id l
    then ([{| addr := p; lk := l; cs := c |}], wrap (leak_size l))
    else ([], 0).
Proof.
  unfold collect_leaks, entries. rewrite map_to_list_singleton. cbn -[wrap].
  destruct (ts <=? leak_id l); reflexivity.
Qed.

(** C4.  After a [restart()] that entered, the counters are all zero and
    so is what [summary] returns, the map is empty, and the report
    written next finds no leak and no wasted byte, whatever the state
    before.  In
    [watch(a,5); restart(); watch(b,7); report()] (with the id counter
    not about to wrap around) the report has exactly one leak, the one at
    [b], and 7 wasted bytes. *)
Theorem reset_forgets_history cfg pf w bt l1 l2 :
  kTraceyEnabled cfg = true -> enterable w = true ->
  (let w1 := restart cfg pf w bt l1 in
   let r := report_of cfg pf w1 in
   stats w1 = stats_t_new
   /\ (summary cfg pf w1 bt l2).2 = stats_t_new
   /\ registry w1 = ∅
   /\ files (report cfg pf w1 bt l2).1 = files w1 ++ [(logfile r, html r)]
   /\ n_leak r = 0 /\ wasted r = 0)
  /\ (forall a b, a <> 0 -> b <> 0 -> 0 <= id w -> id w + 3 < SIZE_MOD ->
      let w2 := (watch cfg pf (restart cfg pf (watch cfg pf w bt a 5).1 bt l1)
                       bt b 7).1 in
      let r := report_of cfg pf w2 in
      files (report cfg pf w2 bt l2).1 = files w2 ++ [(logfile r, html r)]
      /\ List.map (fun t => (addr t, leak_size (lk t)))
                  (collect_leaks (timestamp_id w2) (registry w2)).1 = [(b, 7)]
      /\ n_leak r = 1 /\ wasted r = 7).
Proof.
  intros Hen Hw. split.
  - intros w1 r.
    destruct (restart_run cfg pf w bt l1 Hen Hw) as (R1 & S1 & T1 & I1 & E1).
    fold w1 in R1, S1, T1, I1, E1.
    destruct (report_run cfg pf w1 bt l2 Hen E1) as (_ & F & _).
    destruct (report_fields cfg pf (timestamp_id w1) (registry w1))
      as (_ & N & W & _).
    fold (report_of cfg pf w1) in N, W. fold r in N, W, F.
    rewrite R1, collect_leaks_empty in N, W.
    repeat split; try assumption. apply summary_result.
  - intros a b Ha Hb Hi0 Hi3 w2 r.
    destruct (watch_plain cfg pf w bt a 5 Hen Ha Hw eq_refl)
      as (_ & _ & Ea & _ & Ia).
    set (wa := (watch cfg pf w bt a 5).1) in *.
    destruct (restart_run cfg pf wa bt l1 Hen Ea) as (R1 & S1 & T1 & I1 & E1).
    set (w1 := restart cfg pf wa bt l1) in *.
    destruct (watch_plain cfg pf w1 bt b 7 Hen Hb E1 eq_refl)
      as (R2 & S2 & E2 & T2 & I2).
    fold w2 in R2, S2, E2, T2, I2.
    destruct (report_run cfg pf w2 bt l2 Hen E2) as (_ & F & _).
    destruct (report_fields cfg pf (timestamp_id w2) (registry w2))
      as (_ & N & W & _).
    fold (report_of cfg pf w2) in N, W. fold r in N, W, F.
    assert (Hc : collect_leaks (timestamp_id w2) (registry w2)
                 = ([{| addr := b;
                        lk := {| leak_size := 7; leak_id := id w + 3 |};
                        cs := callstack_new cfg bt |}], 7)).
    { rewrite R2, R1, T2, T1, I1, Ia, insert_empty, collect_leaks_singleton.
      cbn [leak_id leak_size].
      rewrite !(wrap_small (id w + 1)) by (unfold SIZE_MOD in *; lia).
      rewrite !(wrap_small (id w + 1 + 1)) by (unfold SIZE_MOD in *; lia).
      rewrite (wrap_small (id w + 1 + 1 + 1)) by (unfold SIZE_MOD in *; lia).
      destruct (Z.leb_spec (id w + 1 + 1) (id w + 1 + 1 + 1)); [|lia].
      do 3 f_equal. f_equal. lia. }
    rewrite Hc in N, W |- *. repeat split; assumption.
Qed.

Lemma reset_forgets_history_witness :
  (let w1 := restart default_settings demo_platform initial_world [] 1%positive in
   let r := report_of default_settings demo_platform w1 in
   stats w1 = stats_t_new
   /\ (summary default_settings demo_platform w1 [] 2%positive).2 = stats_t_new
   /\ registry w1 = ∅
   /\ files (report default_settings demo_platform w1 [] 2%positive).1
      = files w1 ++ [(logfile r, html r)]
   /\ n_leak r = 0 /\ wasted r = 0)
  /\ (let w2 := (watch default_settings demo_platform
                   (restart default_settings demo_platform
                      (watch default_settings demo_platform initial_world [] 10 5).1
                      [] 1%positive) [] 11 7).1 in
      let r := report_of default_settings demo_platform w2 in
      files (report default_settings demo_platform w2 [] 2%positive).1
      = files w2 ++ [(logfile r, html r)]
      /\ List.map (fun t => (addr t, leak_size (lk t)))
                  (collect_leaks (timestamp_id w2) (registry w2)).1 = [(11, 7)]
      /\ n_leak r = 1 /\ wasted r = 7).
Proof.
  destruct (reset_forgets_history default_settings demo_platform initial_world
              [] 1%positive 2%positive eq_refl eq_refl) as [H1 H2].
  split; [exact H1|].
  apply (H2 10 11); [discriminate | discriminate | discriminate | reflexivity].
Defined.

(** ** The score *)

Lemma Qle_bool_comp x y c : (x == y)%Q -> Qle_bool x c = Qle_bool y c.
Proof.
  intros H. apply eq_true_iff_eq. rewrite !Qle_bool_iff, H. reflexivity.
Qed.

Lemma Qeq_bool_comp x y c : (x == y)%Q -> Qeq_bool x c = Qeq_bool y c.
Proof.
  intros H. apply eq_true_iff_eq. rewrite !Qeq_bool_iff, H. reflexivity.
Qed.

Lemma leaks_pct_eq n s : (leaks_pct n s == pct_of n s)%Q.
Proof.
  unfold leaks_pct, pct_of. destruct (Z.eqb_spec s 0) as [->|Hs].
  - unfold Qdiv. change (/ inject_Z 0)%Q with 0%Q. ring.
  - unfold Qdiv. ring.
Qed.

Lemma leaks_pct_nonneg n s : 0 <= n -> 0 <= s -> (0 <= leaks_pct n s)%Q.
Proof.
  intros Hn Hs. unfold leaks_pct. destruct s as [|p|p]; simpl; [lra | | lia].
  unfold Qle. simpl. lia.
Qed.

Lemma leaks_pct_zero n s : 0 <= n -> 0 < s -> (leaks_pct n s <= 0)%Q <-> n = 0.
Proof.
  intros Hn Hs. unfold leaks_pct. destruct s as [|p|p]; try lia. simpl.
  unfold Qle. simpl. lia.
Qed.

Lemma score_of_bucket x : (0 <= x)%Q -> score_of x = bucket x.
Proof.
  intros H0. unfold score_of, bucket, Qgt_bool.
  destruct (Qeq_bool x 0) eqn:E0.
  - apply Qeq_bool_iff in E0.
    destruct (Qle_bool x 0) eqn:L0; [|rewrite <- not_true_iff_false, Qle_bool_iff in L0; lra].
    destruct (Qle_bool x (5#4)) eqn:L1; [|rewrite <- not_true_iff_false, Qle_bool_iff in L1; lra].
    destruct (Qle_bool x (5#2)) eqn:L2; [|rewrite <- not_true_iff_false, Qle_bool_iff in L2; lra].
    destruct (Qle_bool x 5) eqn:L3; [|rewrite <- not_true_iff_false, Qle_bool_iff in L3; lra].
    destruct (Qle_bool x 10) eqn:L4; [|rewrite <- not_true_iff_false, Qle_bool_iff in L4; lra].
    reflexivity.
  - rewrite <- not_true_iff_false, Qeq_bool_iff in E0.
    destruct (Qle_bool x 0) eqn:L0; [apply Qle_bool_iff in L0; lra|].
    destruct (Qle_bool x (5#4)) eqn:L1;
    destruct (Qle_bool x (5#2)) eqn:L2;
    destruct (Qle_bool x 5) eqn:L3;
    destruct (Qle_bool x 10) eqn:L4; try reflexivity; simpl;
    repeat match goal with
    | H : Qle_bool _ _ = true |- _ => apply Qle_bool_iff in H
    | H : Qle_bool _ _ = false |- _ => rewrite <- not_true_iff_false, Qle_bool_iff in H
    end; lra.
Qed.

Lemma collect_fold_length ts l : forall acc,
  (length (fold_left (collect_step ts) l acc).1 <= length acc.1 + length l)%nat.
Proof.
  induction l as [|e l IH]; intros acc; simpl; [lia|].
  etransitivity; [apply IH|].
  destruct acc as [fl wa], e as [a [[x|] [c|]]]; simpl; try lia.
  destruct (ts <=? leak_id x); simpl; rewrite ?length_app; simpl; lia.
Qed.

Lemma length_entries (m : gmap Z leak_full) : length (entries m) = size m.
Proof.
  unfold entries. rewrite (merge_sort_Permutation addr_le (map_to_list m)).
  apply length_map_to_list.
Qed.

Lemma collect_leaks_bound ts (m : gmap Z leak_full) :
  (length (collect_leaks ts m).1 <= size m)%nat.
Proof.
  unfold collect_leaks. rewrite <- length_entries.
  apply (collect_fold_length ts (entries m) ([], 0)).
Qed.

(** Within one report, the score is the first matching bucket of the
    percentage of the leaks it counted among the entries of the map, and
    it is [perfect!] exactly when it counted none. *)
Lemma score_follows_buckets cfg pf ts (m : gmap Z leak_full) :
  let r := _report cfg pf ts m in
  score r = bucket (pct_of (n_leak r) (Z.of_nat (size m)))
  /\ (score r = "perfect!" <-> n_leak r = 0).
Proof.
  intros r.
  destruct (report_fields cfg pf ts m) as (_ & N & _ & S & _). fold r in N, S.
  assert (Hb := collect_leaks_bound ts m).
  assert (Hn : 0 <= n_leak r <= Z.of_nat (size m)) by (rewrite N; lia).
  set (x := leaks_pct (n_leak r) (Z.of_nat (size m))) in *.
  assert (H0 : (0 <= x)%Q) by (apply leaks_pct_nonneg; lia).
  assert (Hx : score r = bucket x) by (rewrite S; apply score_of_bucket; exact H0).
  split.
  - rewrite Hx. unfold bucket.
    rewrite (Qeq_bool_comp x _ 0%Q (leaks_pct_eq _ _)).
    rewrite !(Qle_bool_comp x _ _ (leaks_pct_eq _ _)). reflexivity.
  - rewrite Hx. unfold bucket.
    destruct (Qeq_bool x 0) eqn:E0.
    + apply Qeq_bool_iff in E0. split; [intros _ | reflexivity].
      destruct (Z.eq_dec (Z.of_nat (size m)) 0) as [Hz|Hz]; [lia|].
      apply (leaks_pct_zero (n_leak r) (Z.of_nat (size m))); [lia | lia |].
      fold x. lra.
    + rewrite <- not_true_iff_false, Qeq_bool_iff in E0. split.
      * destruct (Qle_bool x (5 # 4)), (Qle_bool x (5 # 2)), (Qle_bool x 5),
          (Qle_bool x 10); discriminate.
      * intros Hz. exfalso. apply E0. subst x. rewrite Hz.
        unfold leaks_pct. destruct (Z.of_nat (size m) =? 0); [reflexivity|].
        unfold Qdiv. change (inject_Z 0) with 0%Q. ring.
Qed.

(** ** Wild pointers *)

Lemma entered_stdout cfg pf w :
  stdout (entered cfg pf w)
  = stdout w ++ (if kTraceyWebserver cfg && negb (once w)
                 then [settings_text pf] else []).
Proof.
  unfold entered, webserver_once, static_m.
  destruct w as [mu st ts i on so fi sh]. simpl.
  destruct mu, (kTraceyWebserver cfg), on; simpl; rewrite ?app_nil_r; reflexivity.
Qed.

(** C8 as the code has it.  With wild-pointer reporting on, a [forget]
    that enters with a non-null address for which the map has no entry
    prints exactly one diagnostic (after the settings banner, when the
    call is the first to enter), leaves the map, the counters and the
    watermark as they were, and the dispatcher returns a null pointer. *)
Theorem wild_forget_reported cfg pf w bt p :
  kTraceyEnabled cfg = true -> kTraceyReportWildPointers cfg = true ->
  p <> 0 -> enterable w = true -> registry w !! p = None ->
  let o := tracer cfg pf w bt p (host pf p) (sentinel 0) in
  (forget cfg pf w bt p).1 = o_world o
  /\ stdout (o_world o)
     = stdout w
       ++ (if kTraceyWebserver cfg && negb (once w) then [settings_text pf] else [])
       ++ [wild_pointer_warning cfg pf bt]
  /\ registry (o_world o) = registry w
  /\ stats (o_world o) = stats w
  /\ timestamp_id (o_world o) = timestamp_id w
  /\ o_ptr o = 0.
Proof.
  intros Hen Hwild Hp Hw Hf o.
  destruct (forget_absent cfg pf w bt p Hen Hp Hw Hf)
    as (R & S & _ & T & _ & O & P).
  fold o in R, S, T, O, P. rewrite Hwild, entered_stdout in O.
  rewrite <- app_assoc in O. repeat split; assumption.
Qed.

Lemma wild_forget_reported_witness :
  let o := tracer wild_settings demo_platform initial_world [100; 200]
                  3735928559 (host demo_platform 3735928559) (sentinel 0) in
  (forget wild_settings demo_platform initial_world [100; 200] 3735928559).1
  = o_world o
  /\ stdout (o_world o)
     = stdout initial_world
       ++ (if kTraceyWebserver wild_settings && negb (once initial_world)
           then [settings_text demo_platform] else [])
       ++ [wild_pointer_warning wild_settings demo_platform [100; 200]]
  /\ registry (o_world o) = registry initial_world
  /\ stats (o_world o) = stats initial_world
  /\ timestamp_id (o_world o) = timestamp_id initial_world
  /\ o_ptr o = 0.
Proof.
  apply (wild_forget_reported wild_settings demo_platform initial_world
           [100; 200] 3735928559); try reflexivity. discriminate.
Defined.

(** C8 as stated fails for an address that was watched and forgotten:
    it has no live record, its entry is still in the map, and a second
    [forget] prints nothing. *)
Lemma forgotten_address_is_not_wild :
  let w1 := (watch wild_settings demo_platform initial_world [100] 1 8).1 in
  let w2 := (forget wild_settings demo_platform w1 [100] 1).1 in
  let w3 := (forget wild_settings demo_platform w2 [100] 1).1 in
  record w2 1 = None /\ stdout w3 = stdout w2.
Proof. split; reflexivity. Qed.

(** ** Sentinel sizes given to [watch] *)

Lemma sentinel_body cfg pf bt m w p obj k :
  0 <= k <= 4 ->
  tracer_body cfg pf bt m w p obj (SIZE_MAX - k)
  = opcode_branch cfg pf bt k m w p obj (SIZE_MAX - k).
Proof.
  intros Hk.
  assert (k = 0 \/ k = 1 \/ k = 2 \/ k = 3 \/ k = 4) as [->|[->|[->|[->| ->]]]]
    by lia; reflexivity.
Qed.

(** No branch of a sentinel adds a record. *)
Lemma opcode_branch_records cfg pf bt k m w p obj s q l second :
  0 <= k <= 4 ->
  map (opcode_branch cfg pf bt k m w p obj s).1 !! q = Some (Some l, second) ->
  map m !! q = Some (Some l, second).
Proof.
  intros Hk.
  assert (k = 0 \/ k = 1 \/ k = 2 \/ k = 3 \/ k = 4) as [->|[->|[->|[->| ->]]]]
    by lia; cbn [opcode_branch].
  - unfold tracer_free. destruct (map m !! p) as [[f1 s1]|] eqn:E; cbn [fst map].
    + destruct (Z.eq_dec p q) as [->|Hpq].
      * rewrite lookup_insert_eq. discriminate.
      * rewrite lookup_insert_ne by assumption. congruence.
    + congruence.
  - unfold tracer_control. destruct (int_at obj =? 1); cbn [fst map].
    + unfold _clear. rewrite lookup_empty. discriminate.
    + congruence.
  - unfold tracer_size. destruct (map m !! p) as [[f1 s1]|]; cbn [fst]; congruence.
  - unfold tracer_report. cbn [fst]. congruence.
  - unfold tracer_view. cbn [fst]. congruence.
Qed.

(** A call that does not enter leaves the map as it is. *)
Lemma tracer_kept_out cfg pf w bt p obj s :
  kTraceyEnabled cfg = false \/ p = 0 \/ enterable w = false ->
  registry (o_world (tracer cfg pf w bt p obj s)) = registry w.
Proof.
  intros H. unfold tracer, static_m, enterable, registry in *.
  destruct (kTraceyEnabled cfg); [|reflexivity]. cbn [negb].
  destruct w as [mu st ts i on so fi sh]. cbn [mutex] in *.
  destruct (Z.eqb_spec p 0) as [->|Hp].
  - destruct mu; reflexivity.
  - destruct H as [H|[H|H]]; [discriminate | contradiction |].
    destruct mu as [|m|]; try discriminate; [|reflexivity].
    cbn [mutex with_mutex]. unfold try_lock.
    apply negb_false_iff in H. rewrite H. reflexivity.
Qed.

(** C10.  [watch(p, s)] with [s] one of the sentinels [SIZE_MAX - k],
    [k] from 0 to 4, registers no allocation: every record the registry
    holds afterwards it held before.  For a non-null [p], when the call
    enters, the state it leaves is the one the branch of opcode [k]
    leaves; and [watch(p, SIZE_MAX)] is [forget(p)]. *)
Theorem sentinel_watch_is_opcode cfg pf w bt p k :
  0 <= k <= 4 ->
  let w' := (watch cfg pf w bt p (SIZE_MAX - k)).1 in
  (forall q l, record w' q = Some l -> record w q = Some l)
  /\ (kTraceyEnabled cfg = true -> p <> 0 -> enterable w = true ->
      let mo := opcode_branch cfg pf bt k (held w) (entered cfg pf w) p
                              (host pf p) (SIZE_MAX - k) in
      w' = with_mutex (unlock mo.1) (o_world mo.2))
  /\ watch cfg pf w bt p SIZE_MAX = forget cfg pf w bt p.
Proof.
  intros Hk w'. split; [|split]; [| |reflexivity].
  - intros q l. subst w'. unfold watch. cbn [fst].
    destruct (kTraceyEnabled cfg) eqn:Hen;
      [|unfold record; rewrite tracer_kept_out by auto; trivial].
    destruct (Z.eq_dec p 0) as [Hp|Hp];
      [unfold record; rewrite tracer_kept_out by auto; trivial|].
    destruct (enterable w) eqn:Hw;
      [|unfold record; rewrite tracer_kept_out by auto; trivial].
    rewrite tracer_entered by assumption.
    rewrite sentinel_body by assumption. cbv zeta. cbn [o_world].
    unfold record at 1. rewrite registry_with_mutex. cbn [unlock map].
    destruct (map _ !! q) as [[[l'|] second]|] eqn:E; try discriminate.
    intros [= ->]. apply opcode_branch_records in E; [|assumption].
    unfold record. cbn [held map] in E. rewrite E. reflexivity.
  - intros Hen Hp Hw mo. subst w' mo. unfold watch. cbn [fst].
    rewrite tracer_entered by assumption.
    rewrite sentinel_body by assumption. reflexivity.
Qed.

Lemma sentinel_watch_is_opcode_witness :
  let w := (watch default_settings demo_platform initial_world [100] 1 8).1 in
  let w' := (watch default_settings demo_platform w [100] 1 (SIZE_MAX - 0)).1 in
  (forall q l, record w' q = Some l -> record w q = Some l)
  /\ (let mo := opcode_branch default_settings demo_platform [100] 0 (held w)
                              (entered default_settings demo_platform w) 1
                              (host demo_platform 1) (SIZE_MAX - 0) in
      w' = with_mutex (unlock mo.1) (o_world mo.2))
  /\ watch default_settings demo_platform w [100] 1 SIZE_MAX
     = forget default_settings demo_platform w [100] 1.
Proof.
  destruct (sentinel_watch_is_opcode default_settings demo_platform
              (watch default_settings demo_platform initial_world [100] 1 8).1
              [100] 1 0 ltac:(lia)) as (H1 & H2 & H3).
  split; [exact H1|]. split; [|exact H3].
  apply H2; [reflexivity | discriminate | reflexivity].
Defined.

(** ** The values of the trees *)

(** Two leaks whose stacks differ below a shared frame: the shared node
    aggregates both sizes. *)
Lemma shared_prefix_aggregates pf :
  let w1 := (watch default_settings pf initial_world [100; 300] 1 10).1 in
  let w2 := (watch default_settings pf w1 [200; 300] 2 20).1 in
  let r := report_of default_settings pf w2 in
  wasted r = 30
  /\ children_sum (child_or_new BOTTOM_TOP (frames_tree r)) = 30
  /\ children_sum (child_or_new TOP_BOTTOM (frames_tree r)) = 30.
Proof. repeat split; reflexivity. Qed.

(** One leak whose stack is the beginning of the stack of another: the
    size of the first is lost in the bottom-top branch. *)
Lemma prefix_stack_size_lost pf :
  let w1 := (watch default_settings pf initial_world [100] 1 10).1 in
  let w2 := (watch default_settings pf w1 [100; 200] 2 20).1 in
  let r := report_of default_settings pf w2 in
  wasted r = 30
  /\ children_sum (child_or_new BOTTOM_TOP (frames_tree r)) = 20.
Proof. repeat split; reflexivity. Qed.

(** C6.  Two leaks of 10 and 20 bytes captured with the same stack
    [100; 200]: the report counts 2 leaks and 30 wasted bytes, but after
    [recalc] the values of the direct children of either branch sum to
    20, the size of the leak visited last, and those of the two branches
    to 40.  The shared nodes were assigned each size in turn, not
    credited with both. *)
Theorem same_stack_credited_once pf :
  let w1 := (watch default_settings pf initial_world [100; 200] 1 10).1 in
  let w2 := (watch default_settings pf w1 [100; 200] 2 20).1 in
  let r := report_of default_settings pf w2 in
  n_leak r = 2 /\ wasted r = 30
  /\ children_sum (child_or_new BOTTOM_TOP (frames_tree r)) = 20
  /\ children_sum (child_or_new TOP_BOTTOM (frames_tree r)) = 20
  /\ children_sum (frames_tree r) = 40.
Proof. repeat split; reflexivity. Qed.

(** ** The tree as an ordered map *)

(** Induction on a tree, with the property at hand for every child. *)
Lemma tree_induction (P : tree -> Prop) :
  (forall v cs, Forall (fun kc => P kc.2) cs -> P (Node v cs)) ->
  forall t, P t.
Proof.
  intros H. fix IH 1. intros [v cs]. apply H.
  induction cs as [|[k c] cs IHcs]; constructor; [apply IH | exact IHcs].
Qed.

Lemma find_put_child k c k' cs :
  find_child k' (put_child k c cs) = if k =? k' then Some c else find_child k' cs.
Proof.
  induction cs as [|[a x] cs IH]; simpl.
  - reflexivity.
  - destruct (Z.ltb_spec k a) as [Hlt|Hge]; simpl.
    + reflexivity.
    + destruct (Z.eqb_spec k a) as [->|Hne]; simpl.
      * destruct (Z.eqb_spec a k'); reflexivity.
      * rewrite IH. destruct (Z.eqb_spec a k') as [->|Hak]; [|reflexivity].
        destruct (Z.eqb_spec k k'); [congruence | reflexivity].
Qed.

Lemma ascending_cons a ks :
  ascending (a :: ks) = true <->
  (match ks with b :: _ => a < b | [] => True end) /\ ascending ks = true.
Proof.
  destruct ks as [|b ks]; simpl.
  - tauto.
  - rewrite andb_true_iff, Z.ltb_lt. tauto.
Qed.

Lemma put_child_head k c cs :
  match put_child k c cs with
  | (k0, _) :: _ => k0 = k \/ (exists c' rest, cs = (k0, c') :: rest /\ k0 < k)
  | [] => False
  end.
Proof.
  destruct cs as [|[a x] cs]; simpl; [auto|].
  destruct (Z.ltb_spec k a); [auto|].
  destruct (Z.eqb_spec k a); [auto|].
  right. exists x, cs. split; [reflexivity | lia].
Qed.

Lemma put_child_ascending k c cs :
  ascending (List.map fst cs) = true ->
  ascending (List.map fst (put_child k c cs)) = true.
Proof.
  induction cs as [|[a x] cs IH]; intros H; [reflexivity|].
  cbn [put_child].
  destruct (Z.ltb_spec k a) as [Hlt|Hge].
  - change (ascending (k :: List.map fst ((a, x) :: cs)) = true).
    apply ascending_cons. split; [exact Hlt | exact H].
  - destruct (Z.eqb_spec k a) as [->|Hne]; [exact H|].
    change (ascending (a :: List.map fst (put_child k c cs)) = true).
    change (ascending (a :: List.map fst cs) = true) in H.
    apply ascending_cons in H as [Hh Ht]. apply ascending_cons.
    split; [|apply IH; exact Ht].
    assert (Hp := put_child_head k c cs).
    destruct (put_child k c cs) as [|[k0 c0] r]; [contradiction|].
    cbn [List.map fst]. destruct Hp as [->|(c' & rest & -> & _)]; [lia|].
    exact Hh.
Qed.

(** In an ascending list every key after the first is larger. *)
Lemma ascending_above a ks :
  ascending (a :: ks) = true -> Forall (fun b => a < b) ks.
Proof.
  revert a. induction ks as [|b ks IH]; intros a H; [constructor|].
  apply ascending_cons in H as [Hab Ht]. constructor; [exact Hab|].
  specialize (IH b Ht). eapply Forall_impl; [exact IH|]. simpl. intros; lia.
Qed.

Lemma find_child_none k (cs : list (Z * tree)) :
  Forall (fun b => b <> k) (List.map fst cs) -> find_child k cs = None.
Proof.
  induction cs as [|[a x] cs IH]; intros H; [reflexivity|].
  inversion H as [|? ? Ha Ht]; subst. simpl.
  destruct (Z.eqb_spec a k); [contradiction | auto].
Qed.

(** Putting a child under a key that is present with that very child
    changes nothing. *)
Lemma put_child_same k c cs :
  ascending (List.map fst cs) = true -> find_child k cs = Some c ->
  put_child k c cs = cs.
Proof.
  induction cs as [|[a x] cs IH]; intros Ha Hf; [discriminate|].
  simpl in Hf. cbn [put_child].
  destruct (Z.eqb_spec a k) as [->|Hne].
  - injection Hf as ->. rewrite Z.ltb_irrefl, Z.eqb_refl. reflexivity.
  - change (ascending (a :: List.map fst cs) = true) in Ha.
    assert (Hab := ascending_above _ _ Ha).
    apply ascending_cons in Ha as [_ Ht].
    destruct (Z.ltb_spec k a) as [Hlt|Hge].
    + exfalso. rewrite find_child_none in Hf; [discriminate|].
      eapply Forall_impl; [exact Hab|]. simpl. intros; lia.
    + destruct (Z.eqb_spec k a); [congruence|]. f_equal. auto.
Qed.

(** X1.  [insert( k )] makes [k] a key, keeps the subtree that was
    there (a fresh one if there was none), leaves every other key as it
    was, and keeps the map in order; on a key that is present in an
    ordered map it changes nothing. *)
Theorem insert_lookup k t :
  has k (insert k t) = true
  /\ tree_at k (insert k t) = tree_at k t
  /\ (forall k', k' <> k ->
        has k' (insert k t) = has k' t /\ tree_at k' (insert k t) = tree_at k' t)
  /\ (ascending (List.map fst (children t)) = true ->
        ascending (List.map fst (children (insert k t))) = true
        /\ (has k t = true -> insert k t = t)).
Proof.
  destruct t as [v cs]. unfold has, tree_at, insert, child_or_new.
  cbn [children get]. repeat split.
  - rewrite find_put_child, Z.eqb_refl. reflexivity.
  - rewrite find_put_child, Z.eqb_refl. reflexivity.
  - rewrite find_put_child. destruct (Z.eqb_spec k k'); [congruence | reflexivity].
  - rewrite find_put_child. destruct (Z.eqb_spec k k'); [congruence | reflexivity].
  - apply put_child_ascending. assumption.
  - destruct (find_child k cs) as [c|] eqn:Hf; [|discriminate].
    intros _. f_equal. apply put_child_same; assumption.
Qed.

Lemma insert_lookup_witness :
  let t := Node 7 [(1, Node 3 []); (5, Node 4 [(2, Node 1 [])])] in
  ascending (List.map fst (children (insert 5 t))) = true
  /\ (has 5 t = true -> insert 5 t = t).
Proof.
  apply (insert_lookup 5 (Node 7 [(1, Node 3 []); (5, Node 4 [(2, Node 1 [])])])).
  reflexivity.
Defined.

Lemma find_drop_child k k' cs :
  k' <> k -> find_child k' (drop_child k cs) = find_child k' cs.
Proof.
  intros Hne. induction cs as [|[a x] cs IH]; [reflexivity|].
  simpl. destruct (Z.eqb_spec a k) as [->|Hak].
  - destruct (Z.eqb_spec k k'); [congruence | reflexivity].
  - simpl. rewrite IH. reflexivity.
Qed.

Lemma find_drop_child_same k cs :
  ascending (List.map fst cs) = true -> find_child k (drop_child k cs) = None.
Proof.
  induction cs as [|[a x] cs IH]; intros Ha; [reflexivity|].
  change (ascending (a :: List.map fst cs) = true) in Ha.
  assert (Hab := ascending_above _ _ Ha).
  apply ascending_cons in Ha as [_ Ht]. simpl.
  destruct (Z.eqb_spec a k) as [->|Hak].
  - apply find_child_none. eapply Forall_impl; [exact Hab|]. simpl. intros; lia.
  - simpl. destruct (Z.eqb_spec a k); [contradiction | auto].
Qed.

Lemma drop_child_absent k cs : find_child k cs = None -> drop_child k cs = cs.
Proof.
  induction cs as [|[a x] cs IH]; [reflexivity|]. simpl.
  destruct (a =? k); [discriminate|]. intros H. f_equal. auto.
Qed.

Lemma drop_child_ascending k cs :
  ascending (List.map fst cs) = true ->
  ascending (List.map fst (drop_child k cs)) = true.
Proof.
  induction cs as [|[a x] cs IH]; intros Ha; [reflexivity|].
  change (ascending (a :: List.map fst cs) = true) in Ha.
  assert (Hab := ascending_above _ _ Ha).
  apply ascending_cons in Ha as [_ Ht]. simpl.
  destruct (a =? k); [exact Ht|].
  change (ascending (a :: List.map fst (drop_child k cs)) = true).
  apply ascending_cons. split; [|auto].
  destruct (drop_child k cs) as [|[b y] r] eqn:E; [exact I|]. cbn [List.map fst].
  assert (Hin : In b (List.map fst cs)).
  { clear - E. revert b y r E. induction cs as [|[a' x'] cs IH]; intros b y r E;
      [discriminate|]. simpl in E. destruct (a' =? k).
    - subst cs. right. left. reflexivity.
    - injection E as -> _ _. left. reflexivity. }
  rewrite Forall_forall in Hab. apply Hab. apply list_elem_of_In. exact Hin.
Qed.

(** X2.  In an ordered map [erase( k )] removes the key [k], leaves
    every other key with its subtree, keeps the order, and changes
    nothing when [k] is not a key. *)
Theorem erase_lookup k t :
  ascending (List.map fst (children t)) = true ->
  has k (erase k t) = false
  /\ (forall k', k' <> k -> tree_at k' (erase k t) = tree_at k' t
                          /\ has k' (erase k t) = has k' t)
  /\ ascending (List.map fst (children (erase k t))) = true
  /\ (has k t = false -> erase k t = t).
Proof.
  destruct t as [v cs]. unfold has, tree_at, erase. cbn [children get].
  intros Ha. repeat split.
  - rewrite find_drop_child_same by assumption. reflexivity.
  - rewrite find_drop_child by assumption. reflexivity.
  - rewrite find_drop_child by assumption. reflexivity.
  - apply drop_child_ascending. assumption.
  - destruct (find_child k cs) eqn:Hf; [discriminate|].
    intros _. f_equal. apply drop_child_absent. assumption.
Qed.

Lemma erase_lookup_witness :
  let t := Node 7 [(1, Node 3 []); (5, Node 4 [(2, Node 1 [])])] in
  has 5 (erase 5 t) = false
  /\ (forall k', k' <> 5 -> tree_at k' (erase 5 t) = tree_at k' t
                          /\ has k' (erase 5 t) = has k' t)
  /\ ascending (List.map fst (children (erase 5 t))) = true
  /\ (has 5 t = false -> erase 5 t = t).
Proof.
  apply (erase_lookup 5 (Node 7 [(1, Node 3 []); (5, Node 4 [(2, Node 1 [])])])).
  reflexivity.
Defined.

(** ** [recalc] *)

Lemma to_int_idemp a : to_int (to_int a) = to_int a.
Proof.
  unfold to_int. replace (((a + 2 ^ 31) mod 2 ^ 32 - 2 ^ 31 + 2 ^ 31))
    with ((a + 2 ^ 31) mod 2 ^ 32) by lia.
  rewrite Zmod_mod. reflexivity.
Qed.

Lemma to_int_add_l a b : to_int (to_int a + b) = to_int (a + b).
Proof.
  unfold to_int. f_equal.
  replace ((a + 2 ^ 31) mod 2 ^ 32 - 2 ^ 31 + b + 2 ^ 31)
    with ((a + 2 ^ 31) mod 2 ^ 32 + b) by lia.
  rewrite Zplus_mod_idemp_l. f_equal. lia.
Qed.

Lemma to_int_small a : - 2 ^ 31 <= a < 2 ^ 31 -> to_int a = a.
Proof. intros H. unfold to_int. rewrite Z.mod_small; lia. Qed.

Lemma recalc_children v cs :
  children (recalc (Node v cs)) = List.map (fun kc => (fst kc, recalc (snd kc))) cs.
Proof. reflexivity. Qed.

Lemma recalc_get v cs :
  get (recalc (Node v cs))
  = fold_left (fun acc kc => to_int (acc + get (snd kc)))
              (List.map (fun kc => (fst kc, recalc (snd kc))) cs)
              (match cs with [] => v | _ => 0 end).
Proof. reflexivity. Qed.

(** X3.  [recalc] is idempotent: a second [recalc] changes nothing. *)
Theorem recalc_idempotent t : recalc (recalc t) = recalc t.
Proof.
  induction t as [v cs IH] using tree_induction.
  assert (Hm : List.map (fun kc => (fst kc, recalc (snd kc)))
                 (List.map (fun kc => (fst kc, recalc (snd kc))) cs)
               = List.map (fun kc => (fst kc, recalc (snd kc))) cs).
  { induction IH as [|[k c] cs Hc _ IHcs]; [reflexivity|].
    cbn [List.map fst snd]. simpl in Hc. rewrite Hc, IHcs. reflexivity. }
  destruct (recalc (Node v cs)) as [v' cs'] eqn:E.
  assert (Ec : cs' = List.map (fun kc => (fst kc, recalc (snd kc))) cs)
    by (rewrite <- recalc_children with (v := v); rewrite E; reflexivity).
  assert (Ev : v' = get (recalc (Node v cs))) by (rewrite E; reflexivity).
  rewrite recalc_get in Ev.
  change (recalc (Node v' cs')) with
    (Node (fold_left (fun acc kc => to_int (acc + get (snd kc)))
             (List.map (fun kc => (fst kc, recalc (snd kc))) cs')
             (match cs' with [] => v' | _ => 0 end))
          (List.map (fun kc => (fst kc, recalc (snd kc))) cs')).
  subst cs'. rewrite Hm. f_equal.
  destruct cs as [|kc cs]; [reflexivity | exact (eq_sym Ev)].
Qed.

Lemma fold_to_int_sum (f : Z * tree -> Z) (g : Z * tree -> Z) cs :
  Forall (fun kc => to_int (f kc) = to_int (g kc)) cs ->
  forall a b, to_int a = to_int b ->
  to_int (fold_left (fun acc kc => to_int (acc + f kc)) cs a)
  = to_int (fold_left (fun acc kc => acc + g kc) cs b).
Proof.
  induction 1 as [|kc cs Hk _ IH]; intros a b Hab; [exact Hab|].
  cbn [fold_left]. apply IH. rewrite to_int_idemp.
  rewrite <- to_int_add_l, Hab, to_int_add_l.
  rewrite (Z.add_comm b (f kc)), <- to_int_add_l, Hk, to_int_add_l.
  f_equal. lia.
Qed.

Lemma fold_left_mapped {A B C} (f : A -> C -> A) (g : B -> C) l : forall a,
  fold_left f (List.map g l) a = fold_left (fun acc x => f acc (g x)) l a.
Proof. induction l as [|x l IH]; intros a; [reflexivity | apply IH]. Qed.

Lemma fold_to_int_wrapped (f : Z * tree -> Z) cs a :
  cs <> [] ->
  to_int (fold_left (fun acc kc => to_int (acc + f kc)) cs a)
  = fold_left (fun acc kc => to_int (acc + f kc)) cs a.
Proof.
  revert a. induction cs as [|kc cs IH]; intros a H; [contradiction|].
  cbn [fold_left]. destruct cs as [|kc' cs]; [apply to_int_idemp|].
  apply IH. discriminate.
Qed.

(** X4.  After [recalc] a node without children has the value it had,
    and any other node has the sum, as an [int], of the values of the
    nodes without children below it; no key changes. *)
Theorem recalc_sums_leaves t :
  get (recalc t)
  = (match children t with [] => get t | _ => to_int (leaves_sum t) end)
  /\ List.map fst (children (recalc t)) = List.map fst (children t).
Proof.
  split.
  - induction t as [v cs IH] using tree_induction.
    destruct cs as [|kc cs]; [reflexivity|].
    cbn [children]. rewrite recalc_get.
    set (l := kc :: cs) in *.
    rewrite <- fold_to_int_wrapped
      by (subst l; discriminate).
    change (leaves_sum (Node v l)) with
      (fold_left (fun acc kc => acc + leaves_sum (snd kc)) l 0).
    rewrite fold_left_mapped. cbn [snd].
    apply (fold_to_int_sum (fun kc => get (recalc (snd kc)))
                           (fun kc => leaves_sum (snd kc))); [|reflexivity].
    eapply Forall_impl; [exact IH|]. intros [k c] Hc. simpl in *.
    rewrite Hc. destruct (children c) eqn:Ech.
    + destruct c as [vc csc]. simpl in Ech. subst csc. reflexivity.
    + apply to_int_idemp.
  - destruct t as [v cs]. rewrite recalc_children. cbn [children].
    rewrite List.map_map. reflexivity.
Qed.

(** ** Copies, merges and [collapse] *)

Lemma ascending_app_below l k r :
  ascending (l ++ k :: r) = true -> Forall (fun a => a < k) l.
Proof.
  induction l as [|a l IH]; intros H; [constructor|].
  change (ascending (a :: (l ++ k :: r)) = true) in H.
  assert (Hab := ascending_above _ _ H).
  apply ascending_cons in H as [_ Ht]. constructor; [|auto].
  rewrite Forall_forall in Hab. apply Hab.
  apply list_elem_of_In, in_or_app. right. left. reflexivity.
Qed.

Lemma put_child_above k c cs :
  Forall (fun a => a < k) (List.map fst cs) -> put_child k c cs = cs ++ [(k, c)].
Proof.
  induction cs as [|[a x] cs IH]; intros H; [reflexivity|].
  inversion H as [|? ? Ha Ht]; subst. cbn [put_child].
  simpl in Ha.
  destruct (Z.ltb_spec k a); [lia|]. destruct (Z.eqb_spec k a); [lia|].
  rewrite IH by assumption. reflexivity.
Qed.

Lemma find_child_above k (cs : list (Z * tree)) :
  Forall (fun a => a < k) (List.map fst cs) -> find_child k cs = None.
Proof.
  intros H. apply find_child_none. eapply Forall_impl; [exact H|].
  simpl. intros; lia.
Qed.

(** A fold that appends one entry per key of an ascending list. *)
Lemma fold_append (step : list (Z * tree) -> Z * tree -> list (Z * tree))
    (G : Z * tree -> tree) cs : forall acc,
  ascending (List.map fst (acc ++ cs)) = true ->
  (forall acc' kc, In kc cs -> Forall (fun a => a < kc.1) (List.map fst acc') ->
     step acc' kc = acc' ++ [(kc.1, G kc)]) ->
  fold_left step cs acc = acc ++ List.map (fun kc => (kc.1, G kc)) cs.
Proof.
  induction cs as [|[k c] cs IH]; intros acc Ha Hs.
  - cbn. rewrite app_nil_r. reflexivity.
  - cbn [fold_left List.map].
    assert (Hb : Forall (fun a => a < k) (List.map fst acc)).
    { rewrite List.map_app in Ha. apply (ascending_app_below _ _ _ Ha). }
    rewrite (Hs acc (k, c)) by (auto; left; reflexivity).
    rewrite IH.
    + rewrite <- app_assoc. reflexivity.
    + rewrite <- app_assoc. rewrite !List.map_app in *. exact Ha.
    + intros acc' kc Hin. apply Hs. right. exact Hin.
Qed.

Lemma ordered_node v cs :
  ordered (Node v cs) = true <->
  ascending (List.map fst cs) = true /\ Forall (fun kc => ordered kc.2 = true) cs.
Proof.
  cbn [ordered]. rewrite andb_true_iff, forallb_forall, List.Forall_forall.
  reflexivity.
Qed.

Lemma clone_children_ordered cs acc :
  ascending (List.map fst (acc ++ cs)) = true ->
  Forall (fun kc => clone kc.2 = kc.2) cs ->
  fold_left (fun acc kc => add_child acc (fst kc, clone (snd kc))) cs acc = acc ++ cs.
Proof.
  intros Ha Hc.
  assert (Hm : List.map (fun kc : Z * tree => (kc.1, clone kc.2)) cs = cs).
  { clear Ha. induction Hc as [|[k c] cs Hk _ IH]; [reflexivity|].
    cbn [List.map fst snd] in *. rewrite Hk, IH. reflexivity. }
  rewrite (fold_append _ (fun kc => clone kc.2)); [| exact Ha |].
  - rewrite Hm. reflexivity.
  - intros acc' [k c] _ Hb. unfold add_child. cbn [fst snd] in *.
    rewrite find_child_above by assumption. apply put_child_above. assumption.
Qed.

(** X5.  A copy of an ordered tree is that tree. *)
Theorem clone_ordered t : ordered t = true -> clone t = t.
Proof.
  induction t as [v cs IH] using tree_induction. intros Ho.
  apply ordered_node in Ho as [Ha Hc]. cbn [clone]. f_equal.
  apply (clone_children_ordered cs []); [exact Ha|].
  rewrite List.Forall_forall in *. intros kc Hin. apply IH; [|apply Hc]; exact Hin.
Qed.

Lemma clone_ordered_witness :
  clone (Node 7 [(1, Node 3 []); (5, Node 4 [(2, Node 1 [])])])
  = Node 7 [(1, Node 3 []); (5, Node 4 [(2, Node 1 [])])].
Proof. apply clone_ordered. reflexivity. Defined.

Lemma find_fold_add_child k cs : forall acc,
  find_child k (fold_left (fun acc kc => add_child acc (fst kc, clone (snd kc))) cs acc)
  = match find_child k acc with
    | Some c => Some c
    | None => clone <$> find_child k cs
    end.
Proof.
  induction cs as [|[a x] cs IH]; intros acc; cbn [fold_left].
  - destruct (find_child k acc); reflexivity.
  - rewrite IH. unfold add_child. cbn [fst snd find_child].
    destruct (find_child a acc) as [y|] eqn:Hay.
    + destruct (find_child k acc) eqn:Hk; [reflexivity|].
      destruct (Z.eqb_spec a k); [congruence | reflexivity].
    + rewrite find_put_child. destruct (Z.eqb_spec a k) as [->|Hak].
      * rewrite Hay. reflexivity.
      * reflexivity.
Qed.

Lemma fold_add_child_ascending cs : forall acc,
  ascending (List.map fst acc) = true ->
  ascending (List.map fst
    (fold_left (fun acc kc => add_child acc (fst kc, clone (snd kc))) cs acc)) = true.
Proof.
  induction cs as [|[a x] cs IH]; intros acc Ha; [exact Ha|].
  cbn [fold_left]. apply IH. unfold add_child. cbn [fst snd].
  destruct (find_child a acc); [exact Ha | apply put_child_ascending; exact Ha].
Qed.

(** X6.  [this += t]: a key of [this] keeps its subtree, also when [t]
    has the key; a key that only [t] has comes with a copy of the subtree
    of [t]; the value becomes that of [t]; and the map stays in order. *)
Theorem merge_lookup t this k :
  find_child k (children (merge t this))
  = match find_child k (children this) with
    | Some c => Some c
    | None => clone <$> find_child k (children t)
    end
  /\ get (merge t this) = get t
  /\ (ascending (List.map fst (children this)) = true ->
      ascending (List.map fst (children (merge t this))) = true).
Proof.
  unfold merge. cbn [children get]. split; [apply find_fold_add_child|].
  split; [reflexivity | apply fold_add_child_ascending].
Qed.

Lemma merge_lookup_witness :
  let this := Node 1 [(2, Node 20 []); (4, Node 40 [])] in
  let t := Node 9 [(2, Node 21 []); (3, Node 30 [])] in
  ascending (List.map fst (children (merge t this))) = true.
Proof.
  apply (merge_lookup (Node 9 [(2, Node 21 []); (3, Node 30 [])])
                      (Node 1 [(2, Node 20 []); (4, Node 40 [])]) 0).
  reflexivity.
Defined.

Lemma merge_into_new t :
  ordered t = true -> children (merge t (Node 0 [])) = children t.
Proof.
  destruct t as [v cs]. intros Ho. apply ordered_node in Ho as [Ha Hc].
  unfold merge. cbn [children].
  apply (clone_children_ordered cs []); [exact Ha|].
  eapply Forall_impl; [exact Hc|]. intros kc. apply clone_ordered.
Qed.

Lemma collapse_wide v cs :
  length cs <> 1%nat ->
  collapse (Node v cs)
  = Node 0
      (fold_left
         (fun acc kc =>
            put_child (fst kc)
              (Node (get (snd kc))
                    (children (merge (collapse (snd kc))
                                     (child_or_new (fst kc) (Node 0 acc)))))
              acc)
         cs []).
Proof.
  destruct cs as [|[k c] [|kc cs]]; cbn [length]; [reflexivity | lia | reflexivity].
Qed.

Lemma collapse_single v k c : collapse (Node v [(k, c)]) = collapse c.
Proof. reflexivity. Qed.

Lemma collapse_children_ordered cs :
  ascending (List.map fst cs) = true ->
  Forall (fun kc => ordered (collapse kc.2) = true) cs ->
  fold_left
    (fun acc kc =>
       put_child (fst kc)
         (Node (get (snd kc))
               (children (merge (collapse (snd kc))
                                (child_or_new (fst kc) (Node 0 acc)))))
         acc)
    cs []
  = List.map (fun kc => (kc.1, Node (get kc.2) (children (collapse kc.2)))) cs.
Proof.
  intros Ha Hc.
  rewrite (fold_append _ (fun kc => Node (get kc.2) (children (collapse kc.2))));
    [reflexivity | exact Ha |].
  intros acc' [k c] Hin Hb. cbn [fst snd] in *.
  rewrite put_child_above by assumption.
  unfold child_or_new. cbn [children]. rewrite find_child_above by assumption.
  change tree_new with (Node 0 []). rewrite merge_into_new; [reflexivity|].
  rewrite List.Forall_forall in Hc. apply (Hc (k, c)). exact Hin.
Qed.

(** X7.  The collapse of an ordered tree is ordered, and none of its
    nodes has exactly one child. *)
Theorem collapse_branching t :
  ordered t = true ->
  ordered (collapse t) = true /\ branching (collapse t) = true.
Proof.
  induction t as [v cs IH] using tree_induction. intros Ho.
  apply ordered_node in Ho as [Ha Hc].
  assert (IH' : Forall (fun kc => ordered (collapse kc.2) = true
                                  /\ branching (collapse kc.2) = true) cs).
  { rewrite List.Forall_forall in *. intros kc Hin. apply IH; [|apply Hc]; exact Hin. }
  destruct (Nat.eq_dec (length cs) 1%nat) as [H1|H1].
  - destruct cs as [|[k c] [|kc cs]]; try discriminate.
    rewrite collapse_single. inversion IH'; subst. assumption.
  - rewrite collapse_wide by assumption.
    rewrite collapse_children_ordered;
      [| exact Ha | eapply Forall_impl; [exact IH'|]; intros kc [H _]; exact H].
    split.
    + apply ordered_node. split.
      * rewrite List.map_map. exact Ha.
      * rewrite List.Forall_forall in *. intros kc' Hin.
        apply in_map_iff in Hin as (kc & <- & Hin). cbn [snd].
        destruct (IH' kc Hin) as [Hok _].
        destruct (collapse kc.2) as [x xs]. exact Hok.
    + cbn [branching]. rewrite length_map.
      apply andb_true_iff. split.
      * apply negb_true_iff, Nat.eqb_neq. exact H1.
      * apply forallb_forall. intros kc' Hin.
        apply in_map_iff in Hin as (kc & <- & Hin). cbn [snd].
        rewrite List.Forall_forall in IH'.
        destruct (IH' kc Hin) as [_ Hbr].
        destruct (collapse kc.2) as [x xs]. exact Hbr.
Qed.

Lemma collapse_branching_witness :
  let t := Node 7 [(1, Node 3 [(4, Node 2 [(6, Node 1 []); (8, Node 1 [])])]);
                   (5, Node 4 [(2, Node 1 [])])] in
  ordered (collapse t) = true /\ branching (collapse t) = true.
Proof.
  apply (collapse_branching
           (Node 7 [(1, Node 3 [(4, Node 2 [(6, Node 1 []); (8, Node 1 [])])]);
                    (5, Node 4 [(2, Node 1 [])])])).
  reflexivity.
Defined.

(** ** The lock *)

(** X8.  Every call of [tracer] returns with the reentrancy flag as it
    found it, whatever its arguments: a state that outside calls can
    enter stays so, and a call made while the flag is up leaves it up. *)
Theorem flag_restored cfg pf w bt p obj s :
  enterable (o_world (tracer cfg pf w bt p obj s)) = enterable w.
Proof.
  unfold tracer. destruct (kTraceyEnabled cfg); [|reflexivity]. cbn [negb].
  destruct w as [mu st ts i on so fi sh]. unfold static_m, enterable.
  cbn [mutex].
  destruct mu as [|m|]; cbn [with_mutex mutex].
  - destruct (p =? 0); [reflexivity|]. unfold try_lock. cbn [recursive].
    destruct (tracer_body _ _ _ _ _ _ _ _). reflexivity.
  - destruct (p =? 0); [reflexivity|]. unfold try_lock.
    destruct (recursive m) eqn:Hr; [cbn; rewrite Hr; reflexivity|].
    destruct (tracer_body _ _ _ _ _ _ _ _). reflexivity.
  - destruct (p =? 0); reflexivity.
Qed.

(** ** What holds between calls *)

Lemma static_m_fields w :
  registry (static_m w) = registry w
  /\ enterable (static_m w) = enterable w
  /\ timestamp_id (static_m w) = timestamp_id w
  /\ id (static_m w) = id w
  /\ stats (static_m w) = stats w.
Proof.
  destruct w as [mu st ts i on so fi sh]. unfold static_m, registry, enterable.
  destruct mu; repeat split; reflexivity.
Qed.

Lemma tracer_skipped cfg pf w bt p obj s :
  kTraceyEnabled cfg = false \/ p = 0 ->
  o_world (tracer cfg pf w bt p obj s)
  = if kTraceyEnabled cfg then static_m w else w.
Proof.
  intros H. unfold tracer. destruct (kTraceyEnabled cfg); [|reflexivity].
  destruct H as [H| ->]; [discriminate|]. reflexivity.
Qed.

(** What the body of a call does to the map, the watermark and the id
    counter: nothing but nulling entries; or a reset; or one insertion
    with a fresh id. *)
Lemma body_effect cfg pf bt m w1 p obj s :
  let mo := tracer_body cfg pf bt m w1 p obj s in
  (timestamp_id (o_world mo.2) = timestamp_id w1
   /\ id (o_world mo.2) = id w1
   /\ forall q, map mo.1 !! q = map m !! q \/ map mo.1 !! q = Some (None, None))
  \/ (map mo.1 = ∅
      /\ timestamp_id (o_world mo.2) = wrap (id w1 + 1)
      /\ id (o_world mo.2) = wrap (id w1 + 1))
  \/ (timestamp_id (o_world mo.2) = timestamp_id w1
      /\ id (o_world mo.2) = wrap (id w1 + 1)
      /\ exists c,
           map mo.1
           = <[p := (Some {| leak_size := s; leak_id := wrap (id w1 + 1) |},
                     Some c)]> (map m)).
Proof.
  unfold tracer_body.
  destruct (s =? sentinel 0).
  { left. unfold tracer_free. destruct (map m !! p) as [[f1 s1]|] eqn:E;
      cbn [fst snd o_world timestamp_id id map]; repeat split; auto.
    intros q. destruct (Z.eq_dec p q) as [->|Hpq].
    - right. apply lookup_insert_eq.
    - left. apply lookup_insert_ne. assumption. }
  destruct (s =? sentinel 1).
  { unfold tracer_control. destruct (int_at obj =? 1);
      cbn [fst snd o_world timestamp_id id map].
    - right. left. repeat split.
    - left. repeat split. auto. }
  destruct (s =? sentinel 2).
  { left. unfold tracer_size. destruct (map m !! p) as [[f1 s1]|];
      cbn [fst snd o_world]; repeat split; auto. }
  destruct (s =? sentinel 3).
  { left. unfold tracer_report. cbn [fst snd o_world timestamp_id id].
    repeat split; auto. }
  destruct (s =? sentinel 4).
  { left. unfold tracer_view. cbn [fst snd o_world timestamp_id id].
    repeat split; auto. }
  right. right. unfold tracer_alloc, create_id.
  cbn [fst snd o_world timestamp_id id map].
  split; [reflexivity|]. split; [reflexivity|]. eexists. reflexivity.
Qed.

(** One call keeps the state consistent, as long as the id counter does
    not wrap around. *)
Lemma tracer_consistent cfg pf w bt p obj s :
  consistent w -> id w + 1 < SIZE_MOD ->
  consistent (o_world (tracer cfg pf w bt p obj s))
  /\ id w <= id (o_world (tracer cfg pf w bt p obj s)) <= id w + 1.
Proof.
  intros (He & Hts & Hm) Hid.
  destruct (static_m_fields w) as (Sr & Se & St & Si & _).
  assert (Hskip : kTraceyEnabled cfg = false \/ p = 0 ->
                  consistent (o_world (tracer cfg pf w bt p obj s))
                  /\ id w <= id (o_world (tracer cfg pf w bt p obj s)) <= id w + 1).
  { intros H. rewrite tracer_skipped by assumption.
    destruct (kTraceyEnabled cfg).
    - unfold consistent, entry_ok. rewrite Sr, Se, St, Si.
      repeat split; try assumption; try lia.
    - repeat split; try assumption; lia. }
  destruct (kTraceyEnabled cfg) eqn:Hen; [|auto].
  destruct (Z.eq_dec p 0) as [Hp|Hp]; [auto|]. clear Hskip.
  rewrite tracer_entered by assumption. cbv zeta. cbn [o_world].
  destruct (entered_fields cfg pf w) as (Er & _ & Et & Ei).
  assert (Hb := body_effect cfg pf bt (held w) (entered cfg pf w) p obj s).
  cbv zeta in Hb.
  destruct (tracer_body cfg pf bt (held w) (entered cfg pf w) p obj s) as [m' o].
  cbn [fst snd] in *. rewrite Et, Ei in Hb. cbn [held map] in Hb.
  unfold consistent, entry_ok.
  rewrite registry_with_mutex, enterable_unlocked. cbn [unlock map].
  change (timestamp_id (with_mutex (unlock m') (o_world o)))
    with (timestamp_id (o_world o)).
  change (id (with_mutex (unlock m') (o_world o))) with (id (o_world o)).
  assert (Hw : wrap (id w + 1) = id w + 1) by (apply wrap_small; lia).
  destruct Hb as [(Ht & Hi & Hq) | [(Hq & Ht & Hi) | (Ht & Hi & c & Hq)]].
  - rewrite Ht, Hi. repeat split; try assumption; try lia.
    intros q v Hv. destruct (Hq q) as [E|E]; rewrite E in Hv.
    + apply (Hm q v Hv).
    + injection Hv as <-. exact I.
  - rewrite Ht, Hi, Hw, Hq. repeat split; try lia.
    intros q v Hv. rewrite lookup_empty in Hv. discriminate.
  - rewrite Ht, Hi, Hw, Hq. repeat split; try lia.
    intros q v Hv. destruct (Z.eq_dec p q) as [->|Hpq].
    + rewrite lookup_insert_eq in Hv. injection Hv as <-. cbn [leak_id].
      rewrite Hw. lia.
    + rewrite lookup_insert_ne in Hv by assumption.
      specialize (Hm q v Hv). unfold entry_ok in Hm.
      destruct v as [[l|] [c'|]]; try assumption. lia.
Qed.

Lemma enter_consistent cfg pf w e :
  consistent w -> id w + 1 < SIZE_MOD ->
  consistent (enter cfg pf w e) /\ id w <= id (enter cfg pf w e) <= id w + 1.
Proof.
  intros Hc Hid.
  destruct e; cbn [enter]; unfold watch, forget, restart, summary, report, view;
    cbn [fst]; apply tracer_consistent; assumption.
Qed.

Lemma consistent_initial : consistent initial_world.
Proof.
  unfold consistent, registry. cbn. repeat split; try lia.
  intros p v Hv. rewrite lookup_empty in Hv. discriminate.
Qed.

Lemma session_consistent_from cfg pf es : forall w n,
  consistent w -> id w <= n -> n + Z.of_nat (length es) < SIZE_MOD ->
  consistent (session cfg pf w es)
  /\ id (session cfg pf w es) <= n + Z.of_nat (length es).
Proof.
  induction es as [|e es IH]; intros w n Hc Hn Hlen.
  - cbn. split; [assumption | lia].
  - change (session cfg pf w (e :: es))
      with (session cfg pf (enter cfg pf w e) es).
    cbn [length] in *. rewrite Nat2Z.inj_succ in *.
    destruct (enter_consistent cfg pf w e Hc) as [Hc' Hi']; [lia|].
    destruct (IH (enter cfg pf w e) (n + 1) Hc') as [Hc'' Hi'']; [lia | lia |].
    split; [exact Hc'' | lia].
Qed.

(** X9.  After any sequence of fewer than 2^64 calls of the public
    entry points, with any arguments, from the initial state: outside
    calls can enter, the watermark is at most the id counter, and every
    entry of the map has both pointers null or both set, with the id of
    the leak between the watermark and the id counter. *)
Theorem session_consistent cfg pf es :
  Z.of_nat (length es) < SIZE_MOD ->
  consistent (session cfg pf initial_world es).
Proof.
  intros Hlen.
  apply (session_consistent_from cfg pf es initial_world 0);
    [apply consistent_initial | reflexivity | lia].
Qed.

Lemma session_consistent_witness :
  consistent (session default_settings demo_platform initial_world
                [EWatch [100] 1 8; EWatch [100] 1 9; EForget [200] 1;
                 ERestart [] 3%positive; EWatch [100] 2 (SIZE_MAX - 1);
                 EReport [] 4%positive]).
Proof. apply session_consistent. reflexivity. Defined.

(** ** What the report lists *)

#[local] Instance addr_le_total : Total addr_le.
Proof. intros a b. unfold addr_le. lia. Qed.

#[local] Instance addr_le_trans : Transitive addr_le.
Proof. intros a b c. unfold addr_le. lia. Qed.

Lemma ascending_iff a ks :
  ascending (a :: ks) = true <-> Forall (fun b => a < b) ks /\ ascending ks = true.
Proof.
  split.
  - intros H. split; [apply ascending_above; exact H|].
    apply ascending_cons in H. tauto.
  - intros [Hf Ha]. apply ascending_cons. split; [|exact Ha].
    destruct ks as [|b ks]; [exact I|]. inversion Hf; assumption.
Qed.

Lemma entries_elem (m : gmap Z leak_full) e :
  In e (entries m) <-> m !! e.1 = Some e.2.
Proof.
  rewrite <- list_elem_of_In. unfold entries.
  rewrite (merge_sort_Permutation addr_le (map_to_list m)).
  destruct e as [a v]. apply elem_of_map_to_list.
Qed.

Lemma entries_ascending (m : gmap Z leak_full) :
  ascending (List.map fst (entries m)) = true.
Proof.
  assert (Hs : StronglySorted addr_le (entries m))
    by (apply StronglySorted_merge_sort; apply _).
  assert (Hn : NoDup ((entries m).*1)).
  { unfold entries. rewrite (merge_sort_Permutation addr_le (map_to_list m)).
    apply NoDup_fst_map_to_list. }
  induction Hs as [|e l Hs IH Hf]; [reflexivity|].
  cbn [fmap list_fmap] in Hn. apply NoDup_cons in Hn as [Hnot Hn].
  change (ascending (e.1 :: List.map fst l) = true).
  apply ascending_iff. split; [|apply IH; exact Hn].
  rewrite List.Forall_forall in *. intros b Hb.
  apply in_map_iff in Hb as (x & <- & Hx). specialize (Hf x Hx).
  unfold addr_le in Hf.
  assert (e.1 <> x.1).
  { intros E. apply Hnot. rewrite E. apply list_elem_of_fmap.
    exists x. split; [reflexivity | apply list_elem_of_In; exact Hx]. }
  lia.
Qed.

Lemma collect_fold ts l : forall acc,
  wrap acc.2 = acc.2 ->
  let r := fold_left (collect_step ts) l acc in
  r.1 = acc.1 ++ flat_map (picked ts) l
  /\ r.2 = wrap (acc.2 + sizes_sum (flat_map (picked ts) l)).
Proof.
  induction l as [|[a [[x|] [c|]]] l IH]; intros [fl wa] Hw; cbn [fst snd] in *.
  - cbn. rewrite app_nil_r, Z.add_0_r. auto.
  - cbn [fold_left collect_step flat_map picked].
    destruct (ts <=? leak_id x).
    + destruct (IH (fl ++ [{| addr := a; lk := x; cs := c |}],
                    wrap (wa + leak_size x))) as [H1 H2];
        [cbn; apply wrap_idemp|].
      cbn [fst snd] in *. cbv zeta. rewrite H1, H2. split.
      * rewrite <- app_assoc. reflexivity.
      * rewrite wrap_add_l. f_equal. unfold sizes_sum. cbn. lia.
    + apply (IH (fl, wa)). exact Hw.
  - apply (IH (fl, wa)). exact Hw.
  - apply (IH (fl, wa)). exact Hw.
  - apply (IH (fl, wa)). exact Hw.
Qed.

Lemma picked_elem ts e t :
  In t (picked ts e) <->
  e = (addr t, (Some (lk t), Some (cs t))) /\ ts <= leak_id (lk t).
Proof.
  destruct e as [a [[x|] [c|]]]; cbn [picked];
    try (split; [intros [] | intros [[=] _]]).
  destruct (Z.leb_spec ts (leak_id x)) as [Hle|Hgt].
  - split.
    + intros [<-|[]]. cbn. auto.
    + intros [[= -> -> ->] _]. left. destruct t; reflexivity.
  - split; [intros [] | intros [[= -> -> ->] H]; lia].
Qed.

Lemma picked_addrs ts l :
  forall b, In b (List.map addr (flat_map (picked ts) l)) -> In b (List.map fst l).
Proof.
  intros b Hb. apply in_map_iff in Hb as (t & <- & Ht).
  apply in_flat_map in Ht as (e & He & Ht).
  apply picked_elem in Ht as [-> _]. apply in_map_iff.
  eexists. split; [|exact He]. reflexivity.
Qed.

Lemma picked_ascending ts l :
  ascending (List.map fst l) = true ->
  ascending (List.map addr (flat_map (picked ts) l)) = true.
Proof.
  induction l as [|e l IH]; intros Ha; [reflexivity|].
  change (ascending (e.1 :: List.map fst l) = true) in Ha.
  apply ascending_iff in Ha as [Hf Ha]. specialize (IH Ha).
  cbn [flat_map]. rewrite List.map_app.
  assert (Hf' : Forall (fun b => e.1 < b) (List.map addr (flat_map (picked ts) l))).
  { rewrite List.Forall_forall in *. intros b Hb. apply Hf.
    apply (picked_addrs ts l). exact Hb. }
  destruct e as [a [[x|] [c|]]]; cbn [picked]; try exact IH.
  destruct (ts <=? leak_id x); [|exact IH].
  cbn [List.map app addr]. apply ascending_iff. split; assumption.
Qed.

(** X10.  [collect_leaks] returns exactly the entries of the map whose
    two pointers are set and whose id is not below the watermark, each
    once and in ascending order of address, and the wasted bytes are the
    sum of their sizes as a [size_t]. *)
Theorem collect_leaks_exact ts (m : gmap Z leak_full) :
  (forall t, In t (collect_leaks ts m).1 <->
             m !! addr t = Some (Some (lk t), Some (cs t)) /\ ts <= leak_id (lk t))
  /\ ascending (List.map addr (collect_leaks ts m).1) = true
  /\ (collect_leaks ts m).2 = wrap (sizes_sum (collect_leaks ts m).1).
Proof.
  unfold collect_leaks.
  destruct (collect_fold ts (entries m) ([], 0) eq_refl) as [H1 H2].
  cbn [fst snd app] in H1, H2. rewrite H1, H2.
  split; [|split; [apply picked_ascending, entries_ascending | reflexivity]].
  intros t. split.
  - intros Ht. apply in_flat_map in Ht as (e & He & Ht).
    apply picked_elem in Ht as [-> Hts]. apply entries_elem in He. auto.
  - intros [Hm Hts]. apply in_flat_map.
    exists (addr t, (Some (lk t), Some (cs t))). split.
    + apply entries_elem. exact Hm.
    + apply picked_elem. auto.
Qed.

(** X11.  After any sequence of fewer than 2^64 calls of the public
    entry points from the initial state, the leaks that a report collects
    are all the records the registry holds: the comparison with the
    watermark leaves none of them out. *)
Theorem report_lists_every_record cfg pf es p l :
  Z.of_nat (length es) < SIZE_MOD ->
  let w := session cfg pf initial_world es in
  record w p = Some l ->
  exists c, In {| addr := p; lk := l; cs := c |}
               (collect_leaks (timestamp_id w) (registry w)).1.
Proof.
  intros Hlen w Hr.
  destruct (session_consistent cfg pf es Hlen) as (_ & _ & Hm). fold w in Hm.
  unfold record in Hr.
  destruct (registry w !! p) as [[[x|] second]|] eqn:E; try discriminate.
  injection Hr as ->. specialize (Hm p _ E). unfold entry_ok in Hm.
  destruct second as [c|]; [|contradiction]. exists c.
  apply (collect_leaks_exact (timestamp_id w) (registry w)). cbn [addr lk cs].
  split; [exact E | lia].
Qed.

Lemma report_lists_every_record_witness :
  let es := [EWatch [100] 1 8; ERestart [] 3%positive; EWatch [100] 2 16] in
  let w := session default_settings demo_platform initial_world es in
  exists c, In {| addr := 2; lk := {| leak_size := 16; leak_id := 3 |}; cs := c |}
               (collect_leaks (timestamp_id w) (registry w)).1.
Proof.
  apply (report_lists_every_record default_settings demo_platform
           [EWatch [100] 1 8; ERestart [] 3%positive; EWatch [100] 2 16]);
    reflexivity.
Defined.

(** ** Round trips of the counters and of the size opcode *)

(** X12.  [watch(p, s); forget(p)] with a plain size, for any non-null
    [p], entered from a state whose counters are valid [size_t] values:
    the count and the bytes in use come back to what they were, the peak
    is the larger of the old peak and the bytes in use in between, and
    the map keeps an entry for [p] with both pointers null. *)
Theorem watch_forget_counters cfg pf w bt bt' p s :
  kTraceyEnabled cfg = true -> p <> 0 -> enterable w = true ->
  plain_size s = true ->
  0 <= usage (stats w) < SIZE_MOD -> 0 <= leaks (stats w) < SIZE_MOD ->
  let w' := (forget cfg pf (watch cfg pf w bt p s).1 bt' p).1 in
  usage (stats w') = usage (stats w)
  /\ leaks (stats w') = leaks (stats w)
  /\ peak (stats w') = Z.max (peak (stats w)) (wrap (usage (stats w) + s))
  /\ registry w' = <[p := (None, None)]> (registry w)
  /\ record w' p = None.
Proof.
  intros Hen Hp Hw Hs Hu Hl w'.
  destruct (watch_plain cfg pf w bt p s Hen Hp Hw Hs) as (R1 & S1 & E1 & _).
  set (w1 := (watch cfg pf w bt p s).1) in *.
  assert (Hf : registry w1 !! p =
               Some (Some {| leak_size := s; leak_id := wrap (id w + 1) |},
                     Some (callstack_new cfg bt)))
    by (rewrite R1; apply lookup_insert_eq).
  destruct (forget_found cfg pf w1 bt' p _ _ Hen Hp E1 Hf) as (R2 & S2 & _).
  fold w' in R2, S2. unfold record. rewrite R2, S2, S1, R1.
  cbn [usage leaks peak leak_size]. rewrite lookup_insert_eq.
  repeat split.
  - rewrite wrap_sub_l. replace (usage (stats w) + s - s) with (usage (stats w)) by lia.
    apply wrap_small. assumption.
  - rewrite wrap_sub_l. replace (leaks (stats w) + 1 - 1) with (leaks (stats w)) by lia.
    apply wrap_small. assumption.
  - destruct (Z.ltb_spec (peak (stats w)) (wrap (usage (stats w) + s))); lia.
  - apply insert_insert_eq.
Qed.

Lemma watch_forget_counters_witness :
  let w := (watch default_settings demo_platform initial_world [100] 1 8).1 in
  let w' := (forget default_settings demo_platform
               (watch default_settings demo_platform w [100; 200] 2 16).1
               [300] 2).1 in
  usage (stats w') = usage (stats w)
  /\ leaks (stats w') = leaks (stats w)
  /\ peak (stats w') = Z.max (peak (stats w)) (wrap (usage (stats w) + 16))
  /\ registry w' = <[2 := (None, None)]> (registry w)
  /\ record w' 2 = None.
Proof.
  apply (watch_forget_counters default_settings demo_platform
           (watch default_settings demo_platform initial_world [100] 1 8).1
           [100; 200] [300] 2 16); try reflexivity; try discriminate;
    split; (discriminate || reflexivity).
Defined.

(** X13.  The size opcode after a [watch] with a plain size returns the
    pointer and that size; after the [forget] that follows it returns
    the pointer and 0; for a non-null address without an entry it returns
    a null pointer and 0.  It changes neither the map nor the counters. *)
Theorem size_query_round_trip cfg pf w bt p s q :
  kTraceyEnabled cfg = true -> p <> 0 -> enterable w = true ->
  plain_size s = true -> q <> 0 -> registry w !! q = None ->
  let w1 := (watch cfg pf w bt p s).1 in
  let w2 := (forget cfg pf w1 bt p).1 in
  (size_query cfg pf w1 bt p).1.2 = p /\ (size_query cfg pf w1 bt p).2 = s
  /\ (size_query cfg pf w2 bt p).1.2 = p /\ (size_query cfg pf w2 bt p).2 = 0
  /\ (size_query cfg pf w bt q).1.2 = 0 /\ (size_query cfg pf w bt q).2 = 0
  /\ registry (size_query cfg pf w1 bt p).1.1 = registry w1
  /\ stats (size_query cfg pf w1 bt p).1.1 = stats w1.
Proof.
  intros Hen Hp Hw Hs Hq Hnone w1 w2.
  destruct (watch_plain cfg pf w bt p s Hen Hp Hw Hs) as (R1 & S1 & E1 & _).
  fold w1 in R1, S1, E1.
  assert (Hf : registry w1 !! p =
               Some (Some {| leak_size := s; leak_id := wrap (id w + 1) |},
                     Some (callstack_new cfg bt)))
    by (rewrite R1; apply lookup_insert_eq).
  destruct (forget_found cfg pf w1 bt p _ _ Hen Hp E1 Hf) as (R2 & _ & E2 & _).
  fold w2 in R2, E2.
  assert (Hq2 : forall w0 a, a <> 0 -> enterable w0 = true ->
            size_query cfg pf w0 bt a
            = let mo := tracer_size (held w0) (entered cfg pf w0) a in
              (with_mutex (unlock mo.1) (o_world mo.2), o_ptr mo.2, o_size mo.2)).
  { intros w0 a Ha He. unfold size_query.
    rewrite tracer_entered by assumption. reflexivity. }
  rewrite (Hq2 w1 p Hp E1), (Hq2 w2 p Hp E2), (Hq2 w q Hq Hw).
  unfold tracer_size, held. cbn [map]. rewrite Hf, R2, lookup_insert_eq, Hnone.
  cbv zeta. cbn [fst snd o_world o_ptr o_size leak_size].
  destruct (entered_fields cfg pf w1) as (Er & Es & _).
  rewrite registry_with_mutex. cbn [unlock map].
  repeat split. exact Es.
Qed.

Lemma size_query_round_trip_witness :
  let w1 := (watch default_settings demo_platform initial_world [100] 1 8).1 in
  let w2 := (forget default_settings demo_platform w1 [100] 1).1 in
  (size_query default_settings demo_platform w1 [100] 1).1.2 = 1
  /\ (size_query default_settings demo_platform w1 [100] 1).2 = 8
  /\ (size_query default_settings demo_platform w2 [100] 1).1.2 = 1
  /\ (size_query default_settings demo_platform w2 [100] 1).2 = 0
  /\ (size_query default_settings demo_platform initial_world [100] 5).1.2 = 0
  /\ (size_query default_settings demo_platform initial_world [100] 5).2 = 0
  /\ registry (size_query default_settings demo_platform w1 [100] 1).1.1 = registry w1
  /\ stats (size_query default_settings demo_platform w1 [100] 1).1.1 = stats w1.
Proof.
  apply (size_query_round_trip default_settings demo_platform initial_world
           [100] 1 8 5); try reflexivity; discriminate.
Defined.

(** ** The peak *)

Lemma size_of_le_total p s live :
  distinct live = true -> size_of p live = Some s -> 0 <= s <= total live.
Proof.
  induction live as [|[a x] live IH]; [discriminate|]. cbn [distinct size_of total].
  intros Hd Hs. apply andb_prop in Hd as [Hd Hr]. apply andb_prop in Hd as [Hd _].
  apply andb_prop in Hd as [_ Hx]. apply Z.leb_le in Hx.
  assert (Ht := total_nonneg live Hr).
  destruct (a =? p).
  - injection Hs as ->. lia.
  - specialize (IH Hr Hs). lia.
Qed.

Lemma step_peak cfg pf w live c :
  kTraceyEnabled cfg = true ->
  tracks w live -> paired live [c] = true ->
  total live < SIZE_MOD ->
  usage (stats w) <= peak (stats w) ->
  usage (stats (step cfg pf w c)) <= peak (stats (step cfg pf w c)).
Proof.
  intros Hen (He & Hd & Hr & Hz & Hu & Hl) Hc Hfit Hpk. cbn [paired] in Hc.
  rewrite andb_true_r in Hc. destruct c as [bt p s | bt p]; cbn [step].
  - apply andb_prop in Hc as [Hc Hn]. apply andb_prop in Hc as [Hp Hs].
    apply negb_true_iff, Z.eqb_neq in Hp.
    destruct (watch_plain cfg pf w bt p s Hen Hp He Hs) as (_ & S & _).
    rewrite S. cbn [usage peak].
    destruct (Z.ltb_spec (peak (stats w)) (wrap (usage (stats w) + s))); lia.
  - destruct (size_of_pending p live Hc) as [s Hs].
    assert (Hp : p <> 0).
    { intros ->. rewrite (distinct_not_null live Hd) in Hs. discriminate. }
    assert (Hrec := Hr p). rewrite Hs in Hrec. unfold record in Hrec.
    destruct (registry w !! p) as [[[l|] second]|] eqn:Hf; try discriminate.
    cbn in Hrec. injection Hrec as Hls.
    destruct (forget_found cfg pf w bt p _ _ Hen Hp He Hf) as (_ & S & _).
    rewrite S. cbn [usage peak]. rewrite Hls.
    destruct (size_of_le_total p s live Hd Hs) as [Hs0 Hst].
    assert (Hfull : usage (stats w) = total live).
    { rewrite Hu. apply wrap_small. split; [apply total_nonneg; assumption | lia]. }
    rewrite wrap_small; unfold SIZE_MOD in *; lia.
Qed.

Lemma run_peak cfg pf t : forall w live,
  kTraceyEnabled cfg = true ->
  tracks w live -> paired live t = true -> fits live t = true ->
  total live < SIZE_MOD ->
  usage (stats w) <= peak (stats w) ->
  usage (stats (run cfg pf w t)) <= peak (stats (run cfg pf w t)).
Proof.
  induction t as [|c t IH]; intros w live Hen Ht Hp Hf Htot Hpk; [exact Hpk|].
  cbn [paired fits] in Hp, Hf.
  apply andb_prop in Hp as [Hc Hp]. apply andb_prop in Hf as [Hf1 Hf].
  apply Z.ltb_lt in Hf1.
  assert (Hc1 : paired live [c] = true) by (cbn [paired]; rewrite Hc; reflexivity).
  change (run cfg pf w (c :: t)) with (run cfg pf (step cfg pf w c) t).
  apply (IH _ (pending_step live c)); try assumption.
  - apply step_tracks; assumption.
  - apply (step_peak cfg pf w live c); assumption.
Qed.

Lemma fits_app pre suf : forall live,
  fits live (pre ++ suf) = true -> fits live pre = true.
Proof.
  induction pre as [|c pre IH]; intros live H; [reflexivity|].
  cbn [app fits] in *. apply andb_prop in H as [Hc H]. rewrite Hc. cbn. eauto.
Qed.

(** X14.  In a sequence of matching pairs whose pending sizes never sum
    to 2^64 or more, at every point the bytes in use are at most the
    peak. *)
Theorem peak_bounds_usage cfg pf pre suf :
  kTraceyEnabled cfg = true ->
  paired [] (pre ++ suf) = true -> fits [] (pre ++ suf) = true ->
  let w := run cfg pf initial_world pre in
  usage (stats w) <= peak (stats w).
Proof.
  intros Hen Hp Hf w.
  apply (run_peak cfg pf pre initial_world []); try assumption.
  - apply tracks_initial.
  - apply (paired_app pre suf). assumption.
  - apply (fits_app pre suf). assumption.
  - reflexivity.
  - reflexivity.
Qed.

Lemma peak_bounds_usage_witness :
  let w := run default_settings demo_platform initial_world
             [Watch [100] 1 8; Watch [100] 2 16; Forget [100] 1] in
  usage (stats w) <= peak (stats w).
Proof.
  apply (peak_bounds_usage default_settings demo_platform
           [Watch [100] 1 8; Watch [100] 2 16; Forget [100] 1]
           [Forget [100] 2]); reflexivity.
Defined.

(** Past 2^64 the bound fails: the bytes in use wrap around and a later
    [forget] brings them back above the recorded peak. *)
Lemma peak_below_usage_after_wrap :
  let w := run default_settings demo_platform initial_world
             [Watch [100] 1 (2 ^ 63); Watch [100] 2 (2 ^ 63 + 5); Forget [100] 1] in
  paired [] [Watch [100] 1 (2 ^ 63); Watch [100] 2 (2 ^ 63 + 5); Forget [100] 1] = true
  /\ peak (stats w) = 2 ^ 63 /\ usage (stats w) = 2 ^ 63 + 5.
Proof. repeat split; reflexivity. Qed.

(** ** Calls that only read *)

Lemma tracer_reads cfg pf w bt p obj s :
  s = sentinel 2 \/ s = sentinel 3 \/ s = sentinel 4 ->
  let w' := o_world (tracer cfg pf w bt p obj s) in
  registry w' = registry w /\ stats w' = stats w
  /\ timestamp_id w' = timestamp_id w /\ id w' = id w.
Proof.
  intros Hs. cbv zeta.
  destruct (static_m_fields w) as (Sr & Se & St & Si & Ss).
  destruct (kTraceyEnabled cfg) eqn:Hen;
    [|rewrite tracer_skipped by auto; rewrite Hen; auto].
  destruct (Z.eq_dec p 0) as [Hp|Hp];
    [rewrite tracer_skipped by auto; rewrite Hen; auto|].
  destruct (enterable w) eqn:Hw.
  - rewrite tracer_entered by assumption. cbv zeta. cbn [o_world].
    destruct (entered_fields cfg pf w) as (Er & Es & Et & Ei).
    rewrite registry_with_mutex. cbn [unlock map].
    destruct Hs as [-> | [-> | ->]]; unfold tracer_body.
    + change (sentinel 2 =? sentinel 0) with false.
      change (sentinel 2 =? sentinel 1) with false.
      change (sentinel 2 =? sentinel 2) with true. cbv iota.
      unfold tracer_size, held. cbn [map].
      destruct (registry w !! p) as [[f1 s1]|]; cbn; auto.
    + unfold tracer_report, held. cbn. auto.
    + unfold tracer_view, held. cbn. auto.
  - unfold tracer. rewrite Hen. cbn [negb].
    destruct (Z.eqb_spec p 0); [contradiction|].
    unfold enterable in Hw. unfold static_m, registry.
    destruct w as [mu st ts i on so fi sh]. cbn [mutex] in *.
    destruct mu as [|m|]; try discriminate; [|cbn; auto].
    cbn [with_mutex mutex]. unfold try_lock.
    apply negb_false_iff in Hw. rewrite Hw. cbn. auto.
Qed.

(** X15.  A call of [tracer] with the size, the report or the view
    opcode only reads: in every state, for every pointer and whatever is
    behind it, the call leaves the map, the counters, the watermark and
    the id counter as they were; and so does [summary()], which is one
    such call on a local and nothing else.  What [report()] and [view()]
    copy outside their call is not part of the statement. *)
Theorem read_opcodes_change_nothing cfg pf w bt p obj local :
  let unchanged w' :=
    registry w' = registry w /\ stats w' = stats w
    /\ timestamp_id w' = timestamp_id w /\ id w' = id w in
  unchanged (o_world (tracer cfg pf w bt p obj (sentinel 2)))
  /\ unchanged (o_world (tracer cfg pf w bt p obj (sentinel 3)))
  /\ unchanged (o_world (tracer cfg pf w bt p obj (sentinel 4)))
  /\ unchanged (summary cfg pf w bt local).1.
Proof.
  cbv zeta. unfold summary. cbn [fst].
  repeat apply conj; apply tracer_reads; auto.
Qed.

(** ** Captured stacks *)

Lemma firstn_of_its_length {A} n (l : list A) :
  firstn (length (firstn n l)) l = firstn n l
  /\ (length (firstn n l) <= n)%nat.
Proof.
  revert l. induction n as [|n IH]; intros [|x l]; cbn; try (split; [reflexivity | lia]).
  destruct (IH l) as [H1 H2]. rewrite H1. split; [reflexivity | lia].
Qed.

(** X17.  A captured stack is a beginning of the backtrace of at most
    [kTraceyStacktraceMaxTraces] frames, and of at most [max_frames]; it
    is empty when more frames are to be skipped than may be captured. *)
Theorem capture_is_bounded_prefix cfg frames_to_skip max_frames bt :
  let out := capture_stack_trace cfg frames_to_skip max_frames bt in
  (exists rest, bt = out ++ rest \/ out = [])
  /\ out = firstn (length out) bt
  /\ Z.of_nat (length out) <= Z.max 0 (Z.min max_frames (kTraceyStacktraceMaxTraces cfg))
  /\ (Z.min max_frames (kTraceyStacktraceMaxTraces cfg) < frames_to_skip -> out = [])
  /\ num_frames (callstack_new cfg bt) <= Z.max 0 (kTraceyStacktraceMaxTraces cfg).
Proof.
  assert (H : forall skip mx,
    let out := capture_stack_trace cfg skip mx bt in
    out = firstn (length out) bt
    /\ Z.of_nat (length out) <= Z.max 0 (Z.min mx (kTraceyStacktraceMaxTraces cfg))
    /\ (Z.min mx (kTraceyStacktraceMaxTraces cfg) < skip -> out = [])).
  { intros skip mx. unfold capture_stack_trace.
    set (K := kTraceyStacktraceMaxTraces cfg).
    set (n := if K <? mx then K else mx).
    assert (Hn : n = Z.min mx K) by (subst n; destruct (Z.ltb_spec K mx); lia).
    rewrite <- Hn. cbv zeta.
    destruct (Z.ltb_spec n skip) as [Hlt|Hge].
    - repeat split; cbn; try lia; try (destruct bt; reflexivity).
    - destruct (firstn_of_its_length (Z.to_nat n) bt) as [F1 F2].
      repeat split.
      + symmetry. exact F1.
      + lia.
      + lia. }
  cbv zeta. destruct (H frames_to_skip max_frames) as (H1 & H2 & H3).
  split; [|split; [exact H1 | split; [exact H2 | split; [exact H3|]]]].
  - exists (skipn (length (capture_stack_trace cfg frames_to_skip max_frames bt)) bt).
    left. rewrite H1 at 1. symmetry. apply firstn_skipn.
  - unfold num_frames, callstack_new. cbn [frames].
    destruct (H 1 (kTraceyStacktraceMaxTraces cfg)) as (_ & H2' & _). lia.
Qed.

Lemma capture_is_bounded_prefix_witness :
  capture_stack_trace default_settings 200 130 [100; 200; 300] = [].
Proof.
  apply (capture_is_bounded_prefix default_settings 200 130 [100; 200; 300]).
  reflexivity.
Defined.

(** ** Formatting *)

Lemma append_empty_r (s : string) : s +:+ EmptyString = s.
Proof.
  induction s as [|c s IH]; [reflexivity|].
  change (String c (s +:+ EmptyString) = String c s). f_equal. exact IH.
Qed.

Lemma safefmt_app f1 f2 args : forall acc,
  safefmt (f1 +:+ f2) args acc = safefmt f2 args (safefmt f1 args acc).
Proof.
  induction f1 as [|c f1 IH]; intros acc; [reflexivity|].
  change (String c f1 +:+ f2) with (String c (f1 +:+ f2)). cbn [safefmt].
  destruct (nat_of_ascii c <=? S (length args))%nat; apply IH.
Qed.

Lemma safefmt_plain f args : forall acc,
  forallb (fun c => (S (length args) <? nat_of_ascii c)%nat)
          (list_ascii_of_string f) = true ->
  safefmt f args acc = acc +:+ f.
Proof.
  induction f as [|c f IH]; intros acc H.
  - cbn [safefmt]. symmetry. apply append_empty_r.
  - cbn [list_ascii_of_string forallb] in H. apply andb_prop in H as [Hc H].
    apply Nat.ltb_lt in Hc. cbn [safefmt].
    destruct (Nat.leb_spec (nat_of_ascii c) (S (length args))); [lia|].
    rewrite IH by assumption. rewrite append_assoc. reflexivity.
Qed.

(** X18.  Formatting with one argument: in a format made of plain text
    (no character with a code up to 2), the placeholder [\1] and more
    plain text, the placeholder is replaced by the argument and the text
    is copied; a format of plain text only is returned unchanged. *)
Theorem fmt_substitutes pre suf x :
  let plain s := forallb (fun c => (2 <? nat_of_ascii c)%nat)
                         (list_ascii_of_string s) in
  plain pre = true -> plain suf = true ->
  fmt (pre +:+ p1 +:+ suf) [x] = pre +:+ x +:+ suf
  /\ fmt pre [x] = pre.
Proof.
  intros plain Hpre Hsuf. unfold fmt. split.
  - rewrite !safefmt_app. rewrite (safefmt_plain pre [x]) by exact Hpre.
    rewrite (safefmt_plain suf [x]) by exact Hsuf.
    change (safefmt p1 [x] (EmptyString +:+ pre))
      with ((EmptyString +:+ pre) +:+ nth 1 [EmptyString +:+ pre; x] EmptyString).
    cbn [nth String.append]. apply append_assoc.
  - rewrite (safefmt_plain pre [x]) by exact Hpre. reflexivity.
Qed.

Lemma fmt_substitutes_witness :
  fmt ("open " +:+ p1 +:+ " now") ["/tmp/report.html"] = "open /tmp/report.html now"
  /\ fmt "open " ["/tmp/report.html"] = "open ".
Proof.
  apply (fmt_substitutes "open " " now" "/tmp/report.html"); reflexivity.
Defined.

Lemma fold_append_strings l : forall acc,
  fold_left (fun out s => out +:+ fmt p1 [s]) l acc
  = acc +:+ fold_right String.append EmptyString l.
Proof.
  induction l as [|s l IH]; intros acc; cbn [fold_left fold_right].
  - symmetry. apply append_empty_r.
  - rewrite IH. change (fmt p1 [s]) with (EmptyString +:+ s).
    cbn [String.append]. apply append_assoc.
Qed.

(** X19.  [flat()] is the concatenation of the strings, in order. *)
Theorem flat_concatenates l : flat l = fold_right String.append EmptyString l.
Proof.
  unfold flat, strings_str.
  destruct l as [|x [|y l]].
  - reflexivity.
  - cbn [fold_right]. symmetry. apply append_empty_r.
  - apply (fold_append_strings (x :: y :: l) EmptyString).
Qed.

(** ** The labels of the printed tree *)

Lemma keys_node v cs k :
  In k (keys (Node v cs)) <-> exists a c, In (a, c) cs /\ (k = a \/ In k (keys c)).
Proof.
  cbn [keys]. rewrite in_flat_map. split.
  - intros ([a c] & Hin & [<-|Hk]); exists a, c; cbn in *; auto.
  - intros (a & c & Hin & [->|Hk]); exists (a, c); cbn; auto.
Qed.

Lemma in_put_child a c cs e :
  In e (put_child a c cs) -> e = (a, c) \/ In e cs.
Proof.
  induction cs as [|[b x] cs IH]; cbn [put_child].
  - intros [<-|[]]. auto.
  - destruct (a <? b); [intros [<-|H]; auto|].
    destruct (a =? b).
    + intros [<-|H]; [auto | right; right; exact H].
    + intros [<-|H]; [right; left; reflexivity|].
      destruct (IH H) as [->|H']; [auto | right; right; exact H'].
Qed.

Lemma find_child_in k cs c : find_child k cs = Some c -> In (k, c) cs.
Proof.
  induction cs as [|[b x] cs IH]; [discriminate|]. cbn.
  destruct (Z.eqb_spec b k) as [->|_]; [intros [= ->]; auto | auto].
Qed.

Lemma keys_child_or_new a t k : In k (keys (child_or_new a t)) -> In k (keys t).
Proof.
  unfold child_or_new. destruct t as [v cs]. cbn [children].
  destruct (find_child a cs) as [c|] eqn:E; [|intros []].
  intros Hk. apply keys_node. exists a, c. split; [|auto].
  apply find_child_in. exact E.
Qed.

Lemma keys_put_child v a c cs k :
  In k (keys (Node v (put_child a c cs))) ->
  k = a \/ In k (keys c) \/ In k (keys (Node v cs)).
Proof.
  intros H. apply keys_node in H as (b & x & Hin & Hk).
  apply in_put_child in Hin as [[= -> ->]|Hin]; [tauto|].
  right. right. apply keys_node. eauto.
Qed.

Lemma keys_insert_set f v t k :
  In k (keys (insert_set f v t)) -> k = f \/ In k (keys t).
Proof.
  unfold insert_set. destruct t as [x cs]. cbn [get children].
  intros H. apply keys_put_child in H as [H|[H|H]]; auto.
  right. unfold set in H.
  apply (keys_child_or_new f (Node x cs)).
  destruct (child_or_new f (Node x cs)). exact H.
Qed.

Lemma keys_insert f t k : In k (keys (insert f t)) -> k = f \/ In k (keys t).
Proof.
  unfold insert. destruct t as [x cs]. cbn [get children].
  intros H. apply keys_put_child in H as [H|[H|H]]; auto.
  right. apply (keys_child_or_new f (Node x cs)). exact H.
Qed.

Lemma keys_at_path (g : tree -> tree) (S : Z -> Prop) path :
  (forall t k, In k (keys (g t)) -> S k \/ In k (keys t)) ->
  forall t k, In k (keys (at_path path g t)) ->
              S k \/ In k path \/ In k (keys t).
Proof.
  intros Hg. induction path as [|a path IH]; intros t k H; cbn [at_path] in H.
  - destruct (Hg t k H); auto.
  - destruct t as [x cs]. cbn [get children] in H.
    apply keys_put_child in H as [->|[H|H]].
    + right. left. left. reflexivity.
    + destruct (IH _ _ H) as [H'|[H'|H']]; auto.
      * right. left. right. exact H'.
      * right. right. apply (keys_child_or_new a (Node x cs)). exact H'.
    + auto.
Qed.

Lemma keys_recalc t : keys (recalc t) = keys t.
Proof.
  induction t as [v cs IH] using tree_induction.
  change (keys (recalc (Node v cs)))
    with (flat_map (fun kc => fst kc :: keys (snd kc))
            (List.map (fun kc => (fst kc, recalc (snd kc))) cs)).
  cbn [keys]. induction IH as [|[a c] cs Hc _ IHcs]; [reflexivity|].
  cbn [List.map flat_map fst snd] in *. rewrite Hc, IHcs. reflexivity.
Qed.

Lemma covered_mono (fs fs' : gset Z) k : fs ⊆ fs' -> covered fs k -> covered fs' k.
Proof. unfold covered. intros Hs [H|[H|H]]; auto. Qed.

Lemma walk_step_covered start end_ l w i :
  (forall k, In k (keys (w_tree w)) -> covered (w_set w) k) ->
  Forall (covered (w_set w)) (w_cur w) ->
  Forall (covered (w_set w)) (w_cur_inv w) ->
  let w' := walk_step start end_ l w i in
  (forall k, In k (keys (w_tree w')) -> covered (w_set w') k)
  /\ Forall (covered (w_set w')) (w_cur w')
  /\ Forall (covered (w_set w')) (w_cur_inv w')
  /\ w_set w ⊆ w_set w'.
Proof.
  intros Ht Hc Hi. unfold walk_step. cbv zeta. cbn [w_tree w_set w_cur w_cur_inv].
  set (f := frame_at (cs l) (start + i)). set (g := frame_at (cs l) (end_ - i)).
  set (fs' := {[g]} ∪ ({[f]} ∪ w_set w)).
  assert (Hsub : w_set w ⊆ fs') by (subst fs'; set_solver).
  assert (Hf : covered fs' f) by (right; right; subst fs'; set_solver).
  assert (Hg : covered fs' g) by (right; right; subst fs'; set_solver).
  assert (Hc' : Forall (covered fs') (w_cur w))
    by (eapply Forall_impl; [exact Hc|]; intros k; apply covered_mono; exact Hsub).
  assert (Hi' : Forall (covered fs') (w_cur_inv w))
    by (eapply Forall_impl; [exact Hi|]; intros k; apply covered_mono; exact Hsub).
  rewrite List.Forall_forall in Hc', Hi'.
  assert (H1 : forall k,
            In k (keys (at_path (w_cur w) (insert_set f (leak_size (lk l))) (w_tree w))) ->
            covered fs' k).
  { intros k Hk.
    apply (keys_at_path _ (fun k => k = f)) in Hk as [->|[Hk|Hk]]; auto.
    - apply (covered_mono (w_set w)); auto.
    - intros t k'. apply keys_insert_set. }
  repeat split.
  - intros k Hk.
    apply (keys_at_path _ (fun k => k = g)) in Hk as [->|[Hk|Hk]]; auto.
    intros t k'. apply keys_insert_set.
  - apply List.Forall_forall. intros k Hk. apply in_app_or in Hk as [Hk|[<-|[]]]; auto.
  - apply List.Forall_forall. intros k Hk. apply in_app_or in Hk as [Hk|[<-|[]]]; auto.
  - exact Hsub.
Qed.

Lemma walk_covered start end_ l idx : forall w,
  (forall k, In k (keys (w_tree w)) -> covered (w_set w) k) ->
  Forall (covered (w_set w)) (w_cur w) ->
  Forall (covered (w_set w)) (w_cur_inv w) ->
  let w' := fold_left (walk_step start end_ l) idx w in
  (forall k, In k (keys (w_tree w')) -> covered (w_set w') k)
  /\ w_set w ⊆ w_set w'.
Proof.
  induction idx as [|i idx IH]; intros w Ht Hc Hi; cbn [fold_left].
  - split; [exact Ht | reflexivity].
  - destruct (walk_step_covered start end_ l w i Ht Hc Hi) as (Ht' & Hc' & Hi' & Hs).
    destruct (IH _ Ht' Hc' Hi') as [H1 H2]. split; [exact H1|].
    etransitivity; [exact Hs | exact H2].
Qed.

Lemma add_leak_covered cfg acc l :
  (forall k, In k (keys acc.1) -> covered acc.2 k) ->
  (forall k, In k (keys (add_leak cfg acc l).1) -> covered (add_leak cfg acc l).2 k)
  /\ acc.2 ⊆ (add_leak cfg acc l).2.
Proof.
  intros Ht. unfold add_leak.
  destruct (num_frames (cs l) =? 0); [split; [exact Ht | reflexivity]|].
  cbv zeta. cbn [fst snd].
  apply walk_covered; cbn [w_tree w_set w_cur w_cur_inv].
  - exact Ht.
  - constructor; [left; reflexivity | constructor].
  - constructor; [right; left; reflexivity | constructor].
Qed.

Lemma build_trees_covered cfg filtered :
  forall k, In k (keys (build_trees cfg filtered).1) ->
            covered (build_trees cfg filtered).2 k.
Proof.
  unfold build_trees.
  set (t0 := insert TOP_BOTTOM (insert BOTTOM_TOP tree_new)).
  assert (H0 : forall k, In k (keys (t0, (∅ : gset Z)).1) ->
                         covered (t0, (∅ : gset Z)).2 k).
  { cbn [fst snd]. intros k Hk. subst t0.
    apply keys_insert in Hk as [->|Hk]; [right; left; reflexivity|].
    apply keys_insert in Hk as [->|[]]. left. reflexivity. }
  revert H0. generalize (t0, (∅ : gset Z)).
  induction filtered as [|l filtered IH]; intros acc H0; cbn [fold_left]; [exact H0|].
  apply IH. apply add_leak_covered. exact H0.
Qed.

Lemma translate_named pf (frames : list Z) (symbols : list string) k :
  In k frames ->
  is_Some ((if (length frames =? length symbols)%nat
            then fold_left (fun (tr : gmap Z string) fs => <[fs.1 := fs.2]> tr)
                           (zip frames symbols) ∅
            else fold_left (fun (tr : gmap Z string) f =>
                              <[f := fmt p1 [show_ptr pf f]]> tr) frames ∅)
           !! k).
Proof.
  intros Hk. destruct (Nat.eqb_spec (length frames) (length symbols)) as [Hl|_].
  - assert (G : forall (acc : gmap Z string),
              is_Some (acc !! k) \/ In k frames ->
              is_Some (fold_left (fun (tr : gmap Z string) fs => <[fs.1 := fs.2]> tr)
                                 (zip frames symbols) acc !! k)).
    { clear Hk. revert symbols Hl.
      induction frames as [|f frames IH]; intros [|s symbols] Hl acc H;
        try discriminate; cbn [zip zip_with fold_left].
      - destruct H as [H|[]]. exact H.
      - apply IH; [cbn in Hl; lia|]. cbn [fst snd].
        destruct (Z.eq_dec f k) as [->|Hne].
        + left. rewrite lookup_insert_eq. eauto.
        + destruct H as [H|[H|H]]; [|contradiction|auto].
          left. rewrite lookup_insert_ne by assumption. exact H. }
    apply G. auto.
  - assert (G : forall (acc : gmap Z string),
              is_Some (acc !! k) \/ In k frames ->
              is_Some (fold_left (fun (tr : gmap Z string) f =>
                                    <[f := fmt p1 [show_ptr pf f]]> tr)
                                 frames acc !! k)).
    { clear Hk. induction frames as [|f frames IH]; intros acc H; cbn [fold_left].
      - destruct H as [H|[]]. exact H.
      - apply IH. destruct (Z.eq_dec f k) as [->|Hne].
        + left. rewrite lookup_insert_eq. eauto.
        + destruct H as [H|[H|H]]; [|contradiction|auto].
          left. rewrite lookup_insert_ne by assumption. exact H. }
    apply G. auto.
Qed.

(** X20.  Every key of the tree that a report prints has a label: the
    keys of the recalculated tree are the two branch keys and frames of
    the set, and [translate] has an entry for each of them, whether or
    not the resolver returned as many names as frames. *)
Theorem printed_keys_have_labels cfg pf filtered :
  let built := build_trees cfg filtered in
  let frames := merge_sort Z.le (elements built.2) in
  let translate := translate_of pf frames (resolve_stack_trace pf frames) in
  Forall (fun k => is_Some (translate !! k)) (keys (recalc built.1)).
Proof.
  intros built frames translate. rewrite keys_recalc.
  apply List.Forall_forall. intros k Hk.
  apply build_trees_covered in Hk. fold built in Hk.
  subst translate. unfold translate_of.
  destruct (Z.eq_dec k TOP_BOTTOM) as [->|Ht]; [rewrite lookup_insert_eq; eauto|].
  rewrite lookup_insert_ne by congruence.
  destruct (Z.eq_dec k BOTTOM_TOP) as [->|Hb]; [rewrite lookup_insert_eq; eauto|].
  rewrite lookup_insert_ne by congruence.
  apply translate_named.
  destruct Hk as [Hk|[Hk|Hk]]; try contradiction.
  apply list_elem_of_In. subst frames.
  rewrite (merge_sort_Permutation Z.le (elements built.2)).
  apply elem_of_elements. exact Hk.
Qed.

(** ** The set of frames *)

Lemma walk_set start end_ l idx k : forall w,
  k ∈ w_set (fold_left (walk_step start end_ l) idx w) <->
  k ∈ w_set w
  \/ exists i, In i idx /\ (k = frame_at (cs l) (start + i)
                           \/ k = frame_at (cs l) (end_ - i)).
Proof.
  induction idx as [|i idx IH]; intros w; cbn [fold_left].
  - split; [auto | intros [H|(i & [] & _)]; exact H].
  - rewrite IH. unfold walk_step. cbn [w_set].
    rewrite !elem_of_union, !elem_of_singleton. split.
    + intros [[H|[H|H]]|(j & Hj & H)].
      * right. exists i. split; [left; reflexivity | auto].
      * right. exists i. split; [left; reflexivity | auto].
      * auto.
      * right. exists j. split; [right; exact Hj | exact H].
    + intros [H|(j & [<-|Hj] & [H|H])]; auto.
      * right. exists j. auto.
      * right. exists j. auto.
Qed.

Lemma add_leak_set cfg acc l k :
  kTraceyStacktraceSkipBegin cfg = 0 -> kTraceyStacktraceSkipEnd cfg = 0 ->
  num_frames (cs l) <= 2 ^ 32 ->
  k ∈ (add_leak cfg acc l).2 <-> k ∈ acc.2 \/ In k (frames (cs l)).
Proof.
  intros Hb He Hn. unfold add_leak. rewrite Hb, He.
  unfold num_frames in *. set (fr := frames (cs l)) in *.
  destruct (Z.eqb_spec (Z.of_nat (length fr)) 0) as [H0|H0].
  - destruct fr; [|cbn in H0; lia]. split; [auto | intros [H|[]]; exact H].
  - cbv zeta. cbn [snd].
    rewrite Z.sub_0_r, Z.mod_small by lia.
    destruct (Z.leb_spec 0 (Z.of_nat (length fr) - 1)) as [_|Hneg]; [|lia].
    replace (Z.to_nat (Z.of_nat (length fr) - 1 - 0 + 1)) with (length fr) by lia.
    rewrite walk_set. cbn [w_set fst snd].
    split; (intros [H|H]; [left; exact H | right]).
    + destruct H as (i & Hi & H). apply in_map_iff in Hi as (j & <- & Hj).
      apply in_seq in Hj. unfold frame_at in H. fold fr in H.
      destruct H as [->| ->]; apply nth_In; lia.
    + apply (In_nth _ _ 0) in H as (j & Hj & <-).
      exists (Z.of_nat j). split.
      * apply in_map_iff. exists j. split; [reflexivity|]. apply in_seq. lia.
      * left. unfold frame_at. fold fr. f_equal. lia.
Qed.

(** X21.  With nothing skipped at either end, the set of frames that a
    report resolves holds exactly the frames of the collected leaks. *)
Theorem frames_set_exact cfg filtered k :
  kTraceyStacktraceSkipBegin cfg = 0 -> kTraceyStacktraceSkipEnd cfg = 0 ->
  Forall (fun l => num_frames (cs l) <= 2 ^ 32) filtered ->
  k ∈ (build_trees cfg filtered).2 <->
  exists l, In l filtered /\ In k (frames (cs l)).
Proof.
  intros Hb He Hn. unfold build_trees.
  assert (G : forall acc,
            k ∈ (fold_left (add_leak cfg) filtered acc).2 <->
            k ∈ acc.2 \/ exists l, In l filtered /\ In k (frames (cs l))).
  { induction Hn as [|l filtered Hl _ IH]; intros acc; cbn [fold_left].
    - split; [auto | intros [H|(l & [] & _)]; exact H].
    - rewrite IH, (add_leak_set cfg acc l k Hb He Hl). split.
      + intros [[H|H]|(x & Hx & H)]; auto.
        * right. exists l. split; [left; reflexivity | exact H].
        * right. exists x. split; [right; exact Hx | exact H].
      + intros [H|(x & [<-|Hx] & H)]; auto.
        right. exists x. auto. }
  rewrite G. cbn [snd]. split; [intros [H|H]; [set_solver | exact H] | auto].
Qed.

Lemma frames_set_exact_witness :
  let filtered :=
    [ {| addr := 1; lk := {| leak_size := 10; leak_id := 1 |};
         cs := {| frames := [100; 200] |} |};
      {| addr := 2; lk := {| leak_size := 20; leak_id := 2 |};
         cs := {| frames := [] |} |} ] in
  200 ∈ (build_trees default_settings filtered).2 <->
  exists l, In l filtered /\ In 200 (frames (cs l)).
Proof.
  apply (frames_set_exact default_settings); [reflexivity | reflexivity |].
  constructor; [vm_compute; discriminate|].
  constructor; [vm_compute; discriminate|]. constructor.
Defined.

(** ** The order of the printed tree *)

Lemma forallb_put_child (P : tree -> bool) k c cs :
  P c = true -> forallb (fun kc => P (snd kc)) cs = true ->
  forallb (fun kc => P (snd kc)) (put_child k c cs) = true.
Proof.
  intros Hc. induction cs as [|[a x] cs IH]; cbn [put_child forallb snd].
  - rewrite Hc. reflexivity.
  - intros H. apply andb_prop in H as [Hx Hr].
    destruct (k <? a); [cbn [forallb snd]; rewrite Hc, Hx, Hr; reflexivity|].
    destruct (k =? a); cbn [forallb snd]; [rewrite Hc, Hr; reflexivity|].
    rewrite Hx, IH by assumption. reflexivity.
Qed.

Lemma ordered_put_child v k c cs :
  ordered (Node v cs) = true -> ordered c = true ->
  ordered (Node v (put_child k c cs)) = true.
Proof.
  cbn [ordered]. intros H Hc. apply andb_prop in H as [Ha Hf].
  rewrite put_child_ascending by assumption.
  rewrite (forallb_put_child ordered) by assumption. reflexivity.
Qed.

Lemma ordered_child_or_new k t : ordered t = true -> ordered (child_or_new k t) = true.
Proof.
  destruct t as [v cs]. unfold child_or_new. cbn [children].
  intros H. destruct (find_child k cs) as [c|] eqn:E; [|reflexivity].
  apply ordered_node in H as [_ Hf]. rewrite List.Forall_forall in Hf.
  apply (Hf (k, c)). apply find_child_in. exact E.
Qed.

Lemma ordered_insert k t : ordered t = true -> ordered (insert k t) = true.
Proof.
  intros H. unfold insert. destruct t as [v cs]. cbn [get children].
  apply ordered_put_child; [exact H | apply ordered_child_or_new; exact H].
Qed.

Lemma ordered_insert_set k x t : ordered t = true -> ordered (insert_set k x t) = true.
Proof.
  intros H. unfold insert_set. destruct t as [v cs]. cbn [get children].
  apply ordered_put_child; [exact H|].
  assert (Hc := ordered_child_or_new k (Node v cs) H).
  destruct (child_or_new k (Node v cs)) as [y ys]. exact Hc.
Qed.

Lemma ordered_at_path (g : tree -> tree) path :
  (forall t, ordered t = true -> ordered (g t) = true) ->
  forall t, ordered t = true -> ordered (at_path path g t) = true.
Proof.
  intros Hg. induction path as [|a path IH]; intros t H; cbn [at_path]; [auto|].
  destruct t as [v cs]. cbn [get children].
  apply ordered_put_child; [exact H|]. apply IH. apply ordered_child_or_new. exact H.
Qed.

Lemma ordered_recalc t : ordered t = true -> ordered (recalc t) = true.
Proof.
  induction t as [v cs IH] using tree_induction. intros H.
  apply ordered_node in H as [Ha Hf].
  change (recalc (Node v cs)) with
    (Node (get (recalc (Node v cs)))
          (List.map (fun kc => (fst kc, recalc (snd kc))) cs)).
  apply ordered_node. split.
  - rewrite List.map_map. exact Ha.
  - rewrite List.Forall_forall in *. intros kc' Hin.
    apply in_map_iff in Hin as (kc & <- & Hin). cbn [snd].
    apply IH; [|apply Hf]; exact Hin.
Qed.

Lemma build_trees_ordered cfg filtered : ordered (build_trees cfg filtered).1 = true.
Proof.
  unfold build_trees.
  assert (H0 : ordered (insert TOP_BOTTOM (insert BOTTOM_TOP tree_new),
                        (∅ : gset Z)).1 = true) by reflexivity.
  revert H0. generalize (insert TOP_BOTTOM (insert BOTTOM_TOP tree_new), (∅ : gset Z)).
  induction filtered as [|l filtered IH]; intros acc H0; cbn [fold_left]; [exact H0|].
  apply IH. unfold add_leak.
  destruct (num_frames (cs l) =? 0); [exact H0|]. cbv zeta. cbn [fst].
  set (w0 := {| w_tree := acc.1; w_set := acc.2;
                w_cur := [BOTTOM_TOP]; w_cur_inv := [TOP_BOTTOM] |}).
  assert (Hw : ordered (w_tree w0) = true) by exact H0.
  revert Hw. generalize w0.
  induction (List.map Z.of_nat (seq 0 _)) as [|i idx IHi]; intros w Hw;
    cbn [fold_left]; [exact Hw|].
  apply IHi. unfold walk_step. cbn [w_tree].
  apply ordered_at_path; [intros t; apply ordered_insert_set|].
  apply ordered_at_path; [intros t; apply ordered_insert_set|]. exact Hw.
Qed.

Lemma report_tree cfg pf ts m :
  frames_tree (_report cfg pf ts m)
  = let built := build_trees cfg (collect_leaks ts m).1 in
    if (size built.2 =? 0)%nat then built.1 else recalc built.1.
Proof.
  unfold _report.
  destruct (collect_leaks ts m) as [fl wa]. cbn [fst].
  destruct (build_trees cfg fl) as [tree0 fs]. cbn [fst snd].
  destruct (size fs =? 0)%nat; reflexivity.
Qed.

(** X22.  The tree of every report is ordered: at every level the keys
    are in strictly ascending order of address, which is the order the
    lines are printed in. *)
Theorem report_tree_ordered cfg pf ts m :
  ordered (frames_tree (_report cfg pf ts m)) = true.
Proof.
  rewrite report_tree. cbv zeta.
  destruct (size _ =? 0)%nat;
    [|apply ordered_recalc]; apply build_trees_ordered.
Qed.

(** ** [forget] after a reset *)

(** X23.  After a [restart()] that entered, a [forget] of any non-null
    address, also of one watched before the reset, finds no entry: the
    counters stay zero and the map stays empty. *)
Theorem forget_after_reset cfg pf w bt bt' local p :
  kTraceyEnabled cfg = true -> enterable w = true -> p <> 0 ->
  let w1 := restart cfg pf w bt local in
  let w2 := (forget cfg pf w1 bt' p).1 in
  stats w2 = stats_t_new /\ registry w2 = ∅.
Proof.
  intros Hen Hw Hp w1 w2.
  destruct (restart_run cfg pf w bt local Hen Hw) as (R1 & S1 & _ & _ & E1).
  fold w1 in R1, S1, E1.
  assert (Hf : registry w1 !! p = None) by (rewrite R1; apply lookup_empty).
  destruct (forget_absent cfg pf w1 bt' p Hen Hp E1 Hf) as (R2 & S2 & _).
  subst w2. unfold forget. cbn [fst]. rewrite R2, S2, R1, S1. auto.
Qed.

Lemma forget_after_reset_witness :
  let w := (watch default_settings demo_platform initial_world [100] 1 8).1 in
  let w1 := restart default_settings demo_platform w [] 2%positive in
  let w2 := (forget default_settings demo_platform w1 [200] 1).1 in
  stats w2 = stats_t_new /\ registry w2 = ∅.
Proof.
  apply (forget_after_reset default_settings demo_platform
           (watch default_settings demo_platform initial_world [100] 1 8).1);
    try reflexivity. discriminate.
Defined.

(** ** The score and what it counts *)

Lemma length_picked ts l :
  length (flat_map (picked ts) l) = length (List.filter (is_leak ts) l).
Proof.
  induction l as [|[a [o c]] l IH]; [reflexivity|].
  cbn [flat_map List.filter]. unfold picked at 1, is_leak at 1. cbn [snd].
  destruct o as [x|], c as [c|]; try exact IH.
  destruct (ts <=? leak_id x); [|exact IH].
  cbn [app length]. rewrite IH. reflexivity.
Qed.

Lemma length_filter_permutation {A} (f : A -> bool) (l l' : list A) :
  l ≡ₚ l' -> length (List.filter f l) = length (List.filter f l').
Proof.
  induction 1 as [|x l l' _ IH|x y l|l l' l'' _ IH1 _ IH2]; cbn [List.filter].
  - reflexivity.
  - destruct (f x); cbn [length]; rewrite IH; reflexivity.
  - destruct (f x), (f y); reflexivity.
  - rewrite IH1. exact IH2.
Qed.

Lemma n_leak_counts_entries cfg pf ts (m : gmap Z leak_full) :
  n_leak (_report cfg pf ts m) = leaks_in ts m.
Proof.
  destruct (report_fields cfg pf ts m) as (_ & N & _). rewrite N.
  unfold leaks_in, collect_leaks.
  destruct (collect_fold ts (entries m) ([], 0) eq_refl) as [H1 _].
  cbn [fst app] in H1. rewrite H1, length_picked. f_equal.
  apply length_filter_permutation. unfold entries.
  apply merge_sort_Permutation.
Qed.

(** C7 as the code has it.  In every report the percentage is
    [100 * leaks / entries]: [leaks] is the number of entries of the map
    with both pointers set and an id not below the watermark, [entries]
    the number of all entries of the map (the distinct addresses watched
    since the last reset, forgotten or not), and an empty map gives 0.
    The score is the first matching bucket: [pct == 0] gives [perfect!],
    [pct <= 1.25] [excellent], [pct <= 2.5] [good], [pct <= 5] [poor],
    [pct <= 10] [mediocre], anything else [lame]; it is [perfect!]
    exactly when there is no such leak.  The number of leaks that the
    report prints is that same count. *)
Theorem score_counts_map_entries cfg pf ts (m : gmap Z leak_full) :
  let r := _report cfg pf ts m in
  n_leak r = leaks_in ts m
  /\ score r = bucket (pct_of (leaks_in ts m) (Z.of_nat (size m)))
  /\ (score r = "perfect!" <-> leaks_in ts m = 0).
Proof.
  intros r.
  assert (N := n_leak_counts_entries cfg pf ts m). fold r in N.
  destruct (score_follows_buckets cfg pf ts m) as [S P]. fold r in S, P.
  rewrite N in S, P. auto.
Qed.

(** C7 as stated fails: 80 allocations were ever observed, one of them
    is a leak, which is 1.25 percent and would be [excellent]; the map
    has two entries, and the score is [lame]. *)
Lemma score_is_not_of_allocations_ever :
  let w := session default_settings demo_platform initial_world churn in
  let r := report_of default_settings demo_platform w in
  allocations_ever churn = 80
  /\ n_leak r = 1
  /\ size (registry w) = 2%nat
  /\ bucket (pct_of (n_leak r) (allocations_ever churn)) = "excellent"
  /\ score r = "lame"
  /\ score r <> bucket (pct_of (n_leak r) (allocations_ever churn)).
Proof.
  vm_compute. repeat split; discriminate.
Qed.
